(** * Health-report upload front end and its pipeline orchestrator

    The development has three parts.

    - [NodeFs]: the part of the Node.js runtime the two route handlers use
      (a file system reached through [path.join], [writeFile], [readdir]
      and [unlink], exceptions, the console), as a small state-and-error
      monad over a [World].
    - [Routes] and [Page]: the route handlers ([POST] of the upload route and
      [POST] of the clear-input route) and the client page
      ([handleFileSelect], [uploadFiles]), translated from the TypeScript.
    - [Orchestrator]: the artifact store, stage runner and orchestrator.
      Their implementation ([medical_orchestrator.py]) is not part of the
      sources at hand, so they are modelled from the specification. *)

From stdpp Require Import gmap strings list.
From Stdlib Require Import Strings.Ascii Strings.Byte.

Local Open Scope string_scope.
Local Open Scope list_scope.

(** ** The Node.js runtime seen by the route handlers *)

Module NodeFs.

(** Absolute paths are kept as the list of their components below the
    root: ["/srv/app/input"] is [["srv"; "app"; "input"]]. *)
Abbreviation path := (list string).

Inductive node :=
  | Reg (content : list byte)
  | Dir.

Inductive Exn :=
  | ENOENT      (* no such file or directory *)
  | ENOTDIR     (* a component of the path prefix is not a directory *)
  | EISDIR      (* the target is a directory *)
  | EINVAL      (* the path is not a usable file name *)
  | ENAMETOOLONG  (* a component or the whole path is too long *)
  | TypeError   (* a JavaScript value of the wrong shape *)
  | NetworkError  (* a fetch that could not be completed *)
  | BodyError.  (* the request body is not form data *)

Record World := {
  cwd : path;                       (* process.cwd() *)
  disk : gmap path node;            (* every entry below the root *)
  console : list string             (* lines written by console.error *)
}.

Definition set_disk (w : World) (d : gmap path node) : World :=
  {| cwd := cwd w; disk := d; console := console w |}.

(** A computation reads and updates the world and either returns a value or
    throws. *)
Definition IO (A : Type) : Type := World → (Exn + A) * World.

Definition io_ret {A} (a : A) : IO A := λ w, (inr a, w).
Definition io_bind {A B} (f : A → IO B) (m : IO A) : IO B :=
  λ w, match m w with
       | (inr a, w') => f a w'
       | (inl e, w') => (inl e, w')
       end.
Definition throw {A} (e : Exn) : IO A := λ w, (inl e, w).
Definition try_catch {A} (body : IO A) (handler : Exn → IO A) : IO A :=
  λ w, match body w with
       | (inr a, w') => (inr a, w')
       | (inl e, w') => handler e w'
       end.

#[global] Instance IO_ret : MRet IO := @io_ret.
#[global] Instance IO_bind : MBind IO := @io_bind.

(** *** path.join *)

Definition slash : ascii := "/"%char.
Definition nul : ascii := "000"%char.

(** [split_slash s] is [s.split('/')]. *)
Fixpoint split_slash (s : string) : list string :=
  match s with
  | EmptyString => [EmptyString]
  | String c rest =>
      if Ascii.eqb c slash then EmptyString :: split_slash rest
      else match split_slash rest with
           | seg :: segs => String c seg :: segs
           | [] => [String c EmptyString]
           end
  end.

(** One segment of the normalisation that [path.join] performs: empty
    segments and ["."] are dropped, [".."] removes the last component (and
    stays at the root), any other segment is appended. *)
Definition push_segment (acc : path) (seg : string) : path :=
  if String.eqb seg "" || String.eqb seg "." then acc
  else if String.eqb seg ".." then removelast acc
  else acc ++ [seg].

Fixpoint ends_with_slash (s : string) : bool :=
  match s with
  | EmptyString => false
  | String c EmptyString => Ascii.eqb c slash
  | String _ rest => ends_with_slash rest
  end.

(** [path_join base rel] is [path.join(base, rel)] for an absolute,
    normalised [base].  Node keeps a trailing separator of the joined path;
    it is kept here as a final empty component, which no directory entry
    can have, so that the file-system calls reject it as they do. *)
Definition path_join (base : path) (rel : string) : path :=
  let p := foldl push_segment base (split_slash rel) in
  if ends_with_slash rel then p ++ [""] else p.

(** *** The file system *)

Definition plain_char (a : ascii) : bool :=
  negb (Ascii.eqb a slash) && negb (Ascii.eqb a nul).

(** A directory entry name: not empty, not ["."] or [".."], and free of
    ['/'] and of the NUL byte. *)
Definition valid_name (c : string) : bool :=
  negb (String.eqb c "") && negb (String.eqb c ".") && negb (String.eqb c "..")
  && forallb plain_char (String.list_ascii_of_string c).

(** The limits of the file system (Linux): a name has at most 255 bytes,
    a path, written out with its separators, fewer than 4096. *)
Definition NAME_MAX : nat := 255.
Definition PATH_MAX : nat := 4096.

(** The length of the path written out, ["/" + c] for each component. *)
Definition path_bytes (p : path) : nat :=
  foldr (λ c n, S (String.length c) + n)%nat 0%nat p.

(** A path the system calls accept: every component is an entry name of at
    most [NAME_MAX] bytes and the whole is shorter than [PATH_MAX]. *)
Definition usable (p : path) : bool :=
  forallb (λ c, valid_name c && Nat.leb (String.length c) NAME_MAX) p
  && Nat.ltb (path_bytes p) PATH_MAX.

(** What is found at [p].  The root always exists and is a directory.  A
    list that is no usable path denotes no place of a file system: nothing
    is found there, whatever the map holds under it. *)
Definition entry (d : gmap path node) (p : path) : option node :=
  if usable p then
    match p with
    | [] => Some Dir
    | _ => d !! p
    end
  else None.

Definition parent (p : path) : path := removelast p.

(** [writeFile(p, buffer)]: creates or truncates the regular file [p].  The
    directory that is to hold it must exist; nothing is created on the way.
    A name or a path beyond the limits is refused.  The disk is taken to
    have room and the process to have the right to write. *)
Definition writeFile (p : path) (buffer : list byte) : IO unit :=
  λ w,
    if negb (usable p) then
      (inl (if forallb valid_name p then ENAMETOOLONG else EINVAL), w)
    else match entry (disk w) (parent p), entry (disk w) p with
         | None, _ => (inl ENOENT, w)
         | Some (Reg _), _ => (inl ENOTDIR, w)
         | Some Dir, Some Dir => (inl EISDIR, w)
         | Some Dir, _ => (inr tt, set_disk w (<[p := Reg buffer]> (disk w)))
         end.

Fixpoint strip_prefix (d p : path) : option path :=
  match d, p with
  | [], _ => Some p
  | x :: d', y :: p' => if String.eqb x y then strip_prefix d' p' else None
  | _ :: _, [] => None
  end.

(** The name under which [p] is listed in directory [d], if it is: [p] is
    [d] followed by one entry name. *)
Definition child_name (d p : path) : option string :=
  match strip_prefix d p with
  | Some [c] => if usable p then Some c else None
  | _ => None
  end.

Definition children (d : gmap path node) (dir : path) : list string :=
  omap (λ e, child_name dir e.1) (map_to_list d).

(** [readdir(dir)]: the names of the entries of [dir]. *)
Definition readdir (dir : path) : IO (list string) :=
  λ w, match entry (disk w) dir with
       | Some Dir => (inr (children (disk w) dir), w)
       | Some (Reg _) => (inl ENOTDIR, w)
       | None => (inl ENOENT, w)
       end.

(** [unlink(p)]: removes the regular file [p]; a directory is refused. *)
Definition unlink (p : path) : IO unit :=
  λ w, match entry (disk w) p with
       | Some (Reg _) => (inr tt, set_disk w (delete p (disk w)))
       | Some Dir => (inl EISDIR, w)
       | None => (inl ENOENT, w)
       end.

Definition process_cwd : IO path := λ w, (inr (cwd w), w).

Definition console_error (line : string) : IO unit :=
  λ w, (inr tt, {| cwd := cwd w; disk := disk w; console := console w ++ [line] |}).

(** [Promise.all(ps)] over promises that were all started: every one of them
    runs to its end whatever the others do, and the result is rejected with
    the first rejection in list order when there is one.  The world returned
    is the one reached when all have settled. *)
Fixpoint Promise_all {A} (ps : list (IO A)) : IO (list A) :=
  match ps with
  | [] => mret []
  | p :: rest =>
      λ w, match p w with
           | (inr a, w') =>
               match Promise_all rest w' with
               | (inr l, w'') => (inr (a :: l), w'')
               | (inl e, w'') => (inl e, w'')
               end
           | (inl e, w') => (inl e, (Promise_all rest w').2)
           end
  end.

End NodeFs.

(** ** The route handlers *)

Module Routes.
Import NodeFs.

(** A browser [File]: its name, its MIME type and its bytes. *)
Record File := {
  file_name : string;
  file_type : string;
  file_bytes : list byte
}.

(** [file.size] *)
Definition file_size (f : File) : nat := length (file_bytes f).

(** A form-data entry is a string or a [File]. *)
Inductive FormDataEntryValue :=
  | FString (s : string)
  | FFile (f : File).

Abbreviation FormData := (list (string * FormDataEntryValue)).

(** A request whose body parses as form data carries the entries; for any
    other body [request.formData()] throws. *)
Record NextRequest := { body : option FormData }.

Inductive JValue :=
  | JBool (b : bool)
  | JString (s : string)
  | JNumber (n : nat).

(** The object handed to [NextResponse.json], field by field. *)
Abbreviation Response := (list (string * JValue)).

Definition NextResponse_json (fields : Response) : Response := fields.

Definition formData (request : NextRequest) : IO FormData :=
  match body request with
  | Some data => mret data
  | None => throw BodyError
  end.

(** [data.get(key)]: the first entry under [key], or [null]. *)
Fixpoint FormData_get (data : FormData) (key : string) : option FormDataEntryValue :=
  match data with
  | [] => None
  | (k, v) :: rest => if String.eqb k key then Some v else FormData_get rest key
  end.

(** [!file]: [null] and the empty string are falsy, a [File] object and a
    non-empty string are truthy. *)
Definition falsy (file : option FormDataEntryValue) : bool :=
  match file with
  | None => true
  | Some (FString s) => String.eqb s ""
  | Some (FFile _) => false
  end.

(** [file.arrayBuffer()]: only a [File] has the method. *)
Definition arrayBuffer (file : option FormDataEntryValue) : IO (list byte) :=
  match file with
  | Some (FFile f) => mret (file_bytes f)
  | _ => throw TypeError
  end.

(** [file.name], as an argument of [path.join], which takes strings only. *)
Definition name_of (file : option FormDataEntryValue) : IO string :=
  match file with
  | Some (FFile f) => mret (file_name f)
  | _ => throw TypeError
  end.

Definition Buffer_from (bytes : list byte) : list byte := bytes.

(** [POST] of the upload route. *)
Definition POST_upload (request : NextRequest) : IO Response :=
  try_catch
    (data ← formData request;
     let file := FormData_get data "file" in
     if falsy file then
       mret (NextResponse_json
               [("success", JBool false); ("message", JString "No file received")])
     else
       bytes ← arrayBuffer file;
       let buffer := Buffer_from bytes in
       (* Save to ./input directory *)
       here ← process_cwd;
       let inputDir := path_join here "input" in
       name ← name_of file;
       let filePath := path_join inputDir name in
       _ ← writeFile filePath buffer;
       mret (NextResponse_json
               [("success", JBool true);
                ("message", JString "File uploaded successfully");
                ("filename", JString name)]))
    (λ error,
       _ ← console_error "Error uploading file:";
       mret (NextResponse_json
               [("success", JBool false); ("message", JString "Error uploading file")])).

(** [POST] of the clear-input route. *)
Definition POST_clear_input : IO Response :=
  try_catch
    (here ← process_cwd;
     let inputDir := path_join here "input" in
     (* Read all files in the input directory *)
     files ← readdir inputDir;
     (* Delete each file *)
     _ ← Promise_all (map (λ file, unlink (path_join inputDir file)) files);
     mret (NextResponse_json
             [("success", JBool true);
              ("message", JString "Input directory cleared successfully");
              ("deletedFiles", JNumber (length files))]))
    (λ error,
       _ ← console_error "Error clearing input directory:";
       mret (NextResponse_json
               [("success", JBool false);
                ("message", JString "Error clearing input directory")])).

(** Reading a response. *)
Fixpoint field (r : Response) (key : string) : option JValue :=
  match r with
  | [] => None
  | (k, v) :: rest => if String.eqb k key then Some v else field rest key
  end.

Definition succeeded (r : Response) : bool :=
  match field r "success" with
  | Some (JBool true) => true
  | _ => false
  end.

(** The answer of the upload route to a file it stored. *)
Definition uploaded_ok (name : string) : Response :=
  [("success", JBool true);
   ("message", JString "File uploaded successfully");
   ("filename", JString name)].

Definition upload_failed : Response :=
  [("success", JBool false); ("message", JString "Error uploading file")].

(** The place in the store that the upload route gives to a file name. *)
Definition input_dir (w : World) : path := path_join (cwd w) "input".
Definition stored_at (w : World) (name : string) : path :=
  path_join (input_dir w) name.

Definition upload_request (f : File) : NextRequest :=
  {| body := Some [("file", FFile f)] |}.

(** The other answers of the two routes. *)
Definition no_file_received : Response :=
  [("success", JBool false); ("message", JString "No file received")].

Definition cleared_ok (deletedFiles : nat) : Response :=
  [("success", JBool true);
   ("message", JString "Input directory cleared successfully");
   ("deletedFiles", JNumber deletedFiles)].

Definition clear_failed : Response :=
  [("success", JBool false); ("message", JString "Error clearing input directory")].

(** The world after [console.error(line, error)]. *)
Definition logged (w : World) (line : string) : World :=
  {| cwd := cwd w; disk := disk w; console := console w ++ [line] |}.

(** A [File] object with the given name. *)
Definition named (name : string) (f : File) : File :=
  {| file_name := name; file_type := file_type f; file_bytes := file_bytes f |}.

End Routes.

(** ** The client page *)

Module Page.
Import NodeFs Routes.

Record UploadedFile := {
  name : string;
  size : nat;
  type : string;
  file : File
}.

Record State := {
  uploadedFiles : list UploadedFile;
  isUploading : bool
}.

(** [uploadedFiles.some(existingFile => existingFile.name === file.name &&
    existingFile.size === file.size)] *)
Definition fileExists (uploadedFiles : list UploadedFile) (f : File) : bool :=
  existsb (λ existingFile,
             String.eqb (name existingFile) (file_name f)
             && Nat.eqb (size existingFile) (file_size f))
          uploadedFiles.

(** [{name: file.name, size: file.size, type: file.type, file: file}] *)
Definition selected (f : File) : UploadedFile :=
  {| name := file_name f; size := file_size f; type := file_type f; file := f |}.

(** The loop of [handleFileSelect] over [files], building [newFiles]. *)
Fixpoint collect_new (uploadedFiles : list UploadedFile) (files : list File)
    : list UploadedFile :=
  match files with
  | [] => []
  | f :: rest =>
      if negb (fileExists uploadedFiles f) then
        selected f :: collect_new uploadedFiles rest
      else collect_new uploadedFiles rest
  end.

(** Some file of the selection has both the name and the size of [f]. *)
Definition already_selected (uploadedFiles : list UploadedFile) (f : File) : Prop :=
  ∃ existingFile, existingFile ∈ uploadedFiles
    ∧ name existingFile = file_name f ∧ size existingFile = file_size f.

(** [handleFileSelect]: [uploadedFiles] is the selection the handler closed
    over, [files] is [event.target.files] ([None] for [null]).  The result
    is the update handed to [setUploadedFiles], or [None] when the handler
    returns before calling it. *)
Definition handleFileSelect (uploadedFiles : list UploadedFile) (files : option (list File))
    : option (list UploadedFile → list UploadedFile) :=
  match files with
  | None => None
  | Some files =>
      let newFiles := collect_new uploadedFiles files in
      Some (λ prev : list UploadedFile, (prev ++ newFiles)%list)
  end.

(** The selection after the event, when no other update came in between. *)
Definition select (uploadedFiles : list UploadedFile) (files : option (list File))
    : list UploadedFile :=
  match handleFileSelect uploadedFiles files with
  | Some update => update uploadedFiles
  | None => uploadedFiles
  end.

(** *** A file on its way to the server

    The browser writes the file name into the [Content-Disposition] header
    of its part of the multipart body, between double quotes, with every
    line feed, carriage return and double quote of the name replaced by
    [%0A], [%0D] and [%22].  The parser behind [request.formData()] reads
    the name up to the closing quote and puts the three characters back
    wherever it sees their escapes, in either letter case for the first
    two: three [replace] calls in a row, for [/%0A/ig], [/%0D/ig] and
    [/%22/g].  It cannot tell an escape the browser wrote from one the name
    had of its own. *)

Definition lf : ascii := ascii_of_byte x0a.
Definition cr : ascii := ascii_of_byte x0d.
Definition dquote : ascii := ascii_of_byte x22.
Definition percent : ascii := ascii_of_byte x25.

Fixpoint escape (s : string) : string :=
  match s with
  | EmptyString => EmptyString
  | String a rest =>
      if Ascii.eqb a lf then String percent (String "0" (String "A" (escape rest)))
      else if Ascii.eqb a cr then String percent (String "0" (String "D" (escape rest)))
      else if Ascii.eqb a dquote then String percent (String "2" (String "2" (escape rest)))
      else String a (escape rest)
  end.

(** [s.replace(re, by)] for a global pattern [re] of three characters,
    given as the test [hit] of the three. *)
Fixpoint replace3 (hit : ascii → ascii → ascii → bool) (repl : ascii) (s : string) : string :=
  match s with
  | EmptyString => EmptyString
  | String a t =>
      match t with
      | String b (String c rest) =>
          if hit a b c then String repl (replace3 hit repl rest)
          else String a (replace3 hit repl t)
      | _ => String a (replace3 hit repl t)
      end
  end.

Definition is_0A (a b c : ascii) : bool :=
  Ascii.eqb a percent && Ascii.eqb b "0" && (Ascii.eqb c "A" || Ascii.eqb c "a").
Definition is_0D (a b c : ascii) : bool :=
  Ascii.eqb a percent && Ascii.eqb b "0" && (Ascii.eqb c "D" || Ascii.eqb c "d").
Definition is_22 (a b c : ascii) : bool :=
  Ascii.eqb a percent && Ascii.eqb b "2" && Ascii.eqb c "2".

Definition unescape (s : string) : string :=
  replace3 is_22 dquote (replace3 is_0D cr (replace3 is_0A lf s)).

(** The name under which the server sees a file that the browser sent
    under [name]. *)
Definition multipart_name (name : string) : string := unescape (escape name).

(** The [File] that [data.get('file')] gives the handler for the file [f]
    appended by the page: the bytes of [f], its name after the round trip,
    and its type, for which the browser writes [application/octet-stream]
    when the file has none. *)
Definition received (f : File) : File :=
  {| file_name := multipart_name (file_name f);
     file_type := if String.eqb (file_type f) "" then "application/octet-stream"
                  else file_type f;
     file_bytes := file_bytes f |}.

(** *** fetch

    What becomes of one request is not in the hands of the page. *)
Inductive FetchOutcome :=
  | Answered       (* the server handled the request and its response came back *)
  | LostRequest    (* the request did not reach the server *)
  | LostResponse.  (* the server handled the request; its response did not come back *)

(** [await fetch(url, {method: 'POST', ...})] for the route served by
    [handler].  The promise is fulfilled with whatever response the server
    sends (the page does not read it) and rejected when no response comes
    back; the server has run the handler unless the request was lost. *)
Definition fetch (handler : IO Response) (outcome : FetchOutcome) : IO unit :=
  λ w, match outcome with
       | Answered => (inr tt, (handler w).2)
       | LostRequest => (inl NetworkError, w)
       | LostResponse => (inl NetworkError, (handler w).2)
       end.

(** Whether the server gets to handle the request, and the server after
    it handled the request of [fetch('/api/clear-input', {method: 'POST'})]
    and of
    [fetch('/api/upload', {method: 'POST', body: formData})] with
    [fileData.file] appended to [formData] under 'file'. *)
Definition reaches (outcome : FetchOutcome) : bool :=
  match outcome with
  | LostRequest => false
  | _ => true
  end.

(** Whether the promise of the [fetch] is fulfilled. *)
Definition answered (outcome : FetchOutcome) : bool :=
  match outcome with
  | Answered => true
  | _ => false
  end.

Definition fetch_clear_input (w : World) : World := (POST_clear_input w).2.
Definition fetch_upload (w : World) (fileData : UploadedFile) : World :=
  (POST_upload (upload_request (received (file fileData))) w).2.

(** The loop [for (const fileData of uploadedFiles)] of [uploadFiles]: one
    awaited [fetch] per file, in order; a rejected one ends the loop.  [net]
    gives the outcomes of the requests in the order they are made, a request
    beyond its end being answered. *)
Fixpoint upload_all (net : list FetchOutcome) (files : list UploadedFile) : IO unit :=
  match files with
  | [] => mret tt
  | fileData :: rest =>
      _ ← fetch (POST_upload (upload_request (received (file fileData)))) (hd Answered net);
      upload_all (tl net) rest
  end.

(** [uploadFiles], against the server world [w].  [st] is the state the
    function closed over, the result is the state after its last update:
    the selection is emptied when the [try] block ran to its end and kept
    when a [fetch] was rejected (the [catch] block only writes to the
    console of the browser), and [finally] resets [isUploading]. *)
Definition uploadFiles (net : list FetchOutcome) (st : State) (w : World) : State * World :=
  if Nat.eqb (length (uploadedFiles st)) 0 || isUploading st then (st, w)
  else
    (* setIsUploading(true) *)
    match (
      (* First, clear the input directory *)
      _ ← fetch POST_clear_input (hd Answered net);
      (* Then upload all files *)
      upload_all (tl net) (uploadedFiles st)) w
    with
    | (inr _, w') =>
        (* Clear the selection after successful upload *)
        ({| uploadedFiles := []; isUploading := false |}, w')
    | (inl _, w') =>
        ({| uploadedFiles := uploadedFiles st; isUploading := false |}, w')
    end.

(** [prev.filter((x, index) => keep(x, index))], from position [index]. *)
Fixpoint filter_index {A} (keep : A → nat → bool) (index : nat) (prev : list A) : list A :=
  match prev with
  | [] => []
  | x :: rest =>
      if keep x index then x :: filter_index keep (S index) rest
      else filter_index keep (S index) rest
  end.

(** [removeFile]: the update handed to [setUploadedFiles]. *)
Definition removeFile (indexToRemove : nat) : list UploadedFile → list UploadedFile :=
  λ prev, filter_index (λ _ index, negb (Nat.eqb index indexToRemove)) 0 prev.

(** What [handleKeyDown] reads of the keyboard event. *)
Record KeyboardEvent := {
  shiftKey : bool;
  key : string
}.

(** [handleKeyDown]: whether [event.preventDefault()] was called, and the
    state and the server once the upload it may have started has ended. *)
Definition handleKeyDown (net : list FetchOutcome) (event : KeyboardEvent)
    (st : State) (w : World) : bool * (State * World) :=
  if shiftKey event && String.eqb (key event) "Enter" then (true, uploadFiles net st w)
  else (false, (st, w)).

(** [clearSelection]: the selection it sets. *)
Definition clearSelection : list UploadedFile := [].

(** The name and size by which [handleFileSelect] tells files apart. *)
Definition entry_key (u : UploadedFile) : string * nat := (name u, size u).
Definition file_key (f : File) : string * nat := (file_name f, file_size f).

(** An entry of the selection that shows the name, size and type of its
    own file. *)
Definition consistent (u : UploadedFile) : Prop :=
  name u = file_name (file u) ∧ size u = file_size (file u)
  ∧ type u = file_type (file u).

(** The places on the server that a run started by [uploadFiles] writes,
    when all its requests arrive. *)
Definition written_paths (st : State) (w : World) : list path :=
  map (λ fileData, stored_at w (multipart_name (file_name (file fileData))))
      (uploadedFiles st).

(** The server still runs where it ran in [w0], and every entry of its
    input directory is the stored form of one of the files [us]. *)
Definition only_from (us : list UploadedFile) (w0 w : World) : Prop :=
  cwd w = cwd w0
  ∧ ∀ c, c ∈ children (disk w) (input_dir w0) →
      ∃ u, u ∈ us
        ∧ stored_at w0 (multipart_name (file_name (file u))) = input_dir w0 ++ [c]
        ∧ disk w !! (input_dir w0 ++ [c]) = Some (Reg (file_bytes (file u))).

(** What the loop of [uploadFiles] keeps once the input directory was
    cleared: the server runs where it ran, the input directory is there,
    and none of its entries is a directory. *)
Definition ready_for_uploads (w0 w : World) : Prop :=
  cwd w = cwd w0
  ∧ entry (disk w) (input_dir w0) = Some Dir
  ∧ ∀ c, usable (input_dir w0 ++ [c]) = true → disk w !! (input_dir w0 ++ [c]) ≠ Some Dir.

(** A name made of dots only, as ["."] and [".."] are. *)
Definition dots (s : string) : bool :=
  forallb (Ascii.eqb ".") (String.list_ascii_of_string s).

Definition run_of (fs : list File) : State :=
  {| uploadedFiles := map selected fs; isUploading := false |}.

End Page.

(** ** The pipeline orchestrator *)

Module Orchestrator.

Abbreviation payload := (list byte).

(** Modelled from the spec: the error taxonomy of section 7, with the
    [ArtifactMissing] of section 4.1.  The orchestrator they belong to is
    not among the sources. *)
Inductive ErrorKind :=
  | MissingDependency
  | Transient
  | Permanent
  | ArtifactConflict
  | ArtifactMissing
  | RunAlreadyExists.

(** *** Artifact Store *)

(** Modelled from the spec: an artifact of section 3, without its creation
    timestamp. *)
Record Artifact := {
  art_payload : payload;
  art_stage : string;       (* the stage that produced it *)
  art_size : nat
}.

Record ArtifactRef := {
  ref_run : string;
  ref_name : string
}.

(** Modelled from the spec: the Artifact Store of section 4.1, whose
    implementation is not among the sources.  It maps (run identifier,
    artifact name) to the artifact; creation timestamps are left out. *)
Abbreviation Store := (gmap (string * string) Artifact).

(** Modelled from the spec: [exists(runId, name)]. *)
Definition exists_ (store : Store) (runId name : string) : bool :=
  match store !! (runId, name) with
  | Some _ => true
  | None => false
  end.

(** Modelled from the spec: [put] writes the payload under (runId, name)
    and fails with [ArtifactConflict] if (runId, name) already exists. *)
Definition put (store : Store) (runId name : string) (p : payload) (producingStage : string)
    : ErrorKind + (ArtifactRef * Store) :=
  if exists_ store runId name then inl ArtifactConflict
  else inr ({| ref_run := runId; ref_name := name |},
            <[(runId, name) :=
                {| art_payload := p; art_stage := producingStage; art_size := length p |}]>
              store).

(** Modelled from the spec: [get] fails with [ArtifactMissing] if the
    artifact is not present. *)
Definition get (store : Store) (runId name : string) : ErrorKind + payload :=
  match store !! (runId, name) with
  | Some a => inr (art_payload a)
  | None => inl ArtifactMissing
  end.

(** Modelled from the spec: [list(runId)], the references of a run. *)
Definition list_ (store : Store) (runId : string) : list ArtifactRef :=
  omap (λ e : (string * string) * Artifact,
          if String.eqb e.1.1 runId
          then Some {| ref_run := e.1.1; ref_name := e.1.2 |} else None)
       (map_to_list store).

(** Modelled from the spec: [purge(runId)] removes all artifacts of a run. *)
Definition purge (store : Store) (runId : string) : Store :=
  filter (λ e : (string * string) * Artifact, e.1.1 ≠ runId) store.

(** *** Stages *)

(** Modelled from the spec: what an invocation of an external collaborator
    can end with, other than a result (sections 4.2 and 6). *)
Inductive Signal :=
  | NetworkFailure
  | RateLimited
  | MalformedInput
  | InvalidResponseShape
  | SyntaxError
  | MissingToolchain.

(** Modelled from the spec: a collaborator invocation returns a payload
    for every declared output, raises an error, or exceeds the stage's
    timeout (step 2 of section 4.2). *)
Inductive CollabResult :=
  | Returned (outs : string → payload)
  | Raised (sig : Signal) (message : string)
  | TimedOut.

(** The collaborator is a black box: what it answers may differ from one
    attempt to the next, so it is given the number of the attempt (from 1)
    next to the input payloads. *)
Abbreviation Collaborator := (nat → list payload → CollabResult).

(** Modelled from the spec: a Stage Definition of section 3. *)
Record StageDef := {
  stage_name : string;
  inputs : list string;
  outputs : list string;
  invoke : Collaborator;
  timeout : nat;
  maxRetries : nat
}.

Inductive Status := Succeeded | Failed | Skipped.

(** Modelled from the spec: a Stage Outcome of section 3, without its
    duration. *)
Record StageOutcome := {
  out_stage : string;
  status : Status;
  attempts : nat;
  error : option (ErrorKind * string);
  output_refs : list ArtifactRef
}.

(** *** Stage Runner *)

(** Modelled from the spec: step 4 of section 4.2.  Network, rate-limit and
    timeout signals are [Transient]; malformed input, an invalid response
    shape, a syntax error and a missing toolchain are [Permanent]. *)
Definition classify (r : CollabResult) : option (ErrorKind * string) :=
  match r with
  | Returned _ => None
  | TimedOut => Some (Transient, "timeout")
  | Raised NetworkFailure m | Raised RateLimited m => Some (Transient, m)
  | Raised MalformedInput m | Raised InvalidResponseShape m
  | Raised SyntaxError m | Raised MissingToolchain m => Some (Permanent, m)
  end.

(** Modelled from the spec: the attempt sequence of one stage.  [attempt] is
    the number of the invocation about to be made and [retries] the retries
    still allowed.  A [Transient] error is retried while retries remain; any
    other error ends the sequence at once.  The delay between attempts is
    time only and is not modelled. *)
Fixpoint attempt_loop (call : nat → CollabResult) (retries attempt : nat)
    : nat * (ErrorKind * string + (string → payload)) :=
  match call attempt with
  | Returned outs => (attempt, inr outs)
  | failure =>
      let e := default (Permanent, "") (classify failure) in
      match e.1, retries with
      | Transient, S retries' => attempt_loop call retries' (S attempt)
      | _, _ => (attempt, inl e)
      end
  end.

(** Modelled from the spec: step 3, the declared outputs are written one
    after the other with [put]; the first write that fails ends the
    sequence. *)
Fixpoint put_all (store : Store) (runId stage : string) (outs : string → payload)
    (names : list string) : (ErrorKind + list ArtifactRef) * Store :=
  match names with
  | [] => (inr [], store)
  | name :: rest =>
      match put store runId name (outs name) stage with
      | inl e => (inl e, store)
      | inr (ref, store') =>
          match put_all store' runId stage outs rest with
          | (inr refs, store'') => (inr (ref :: refs), store'')
          | (inl e, store'') => (inl e, store'')
          end
      end
  end.

Definition input_payloads (store : Store) (runId : string) (names : list string)
    : list payload :=
  omap (λ name, art_payload <$> store !! (runId, name)) names.

Definition failed (def : StageDef) (n : nat) (e : ErrorKind * string) : StageOutcome :=
  {| out_stage := stage_name def; status := Failed; attempts := n;
     error := Some e; output_refs := [] |}.

(** Modelled from the spec: [run(stageDef, store, runId)] of section 4.2,
    steps 1 to 5.  When an output write fails the stage fails, and by the
    guarantee of that section the outputs written before it do not become
    visible: the store is the one the execution started with. *)
Definition run (def : StageDef) (store : Store) (runId : string) : StageOutcome * Store :=
  if negb (forallb (exists_ store runId) (inputs def)) then
    (failed def 0 (MissingDependency, "missing input"), store)
  else
    let ins := input_payloads store runId (inputs def) in
    match attempt_loop (λ k, invoke def k ins) (maxRetries def) 1 with
    | (n, inl e) => (failed def n e, store)
    | (n, inr outs) =>
        match put_all store runId (stage_name def) outs (outputs def) with
        | (inl e, _) => (failed def n (e, "output write failed"), store)
        | (inr refs, store') =>
            ({| out_stage := stage_name def; status := Succeeded; attempts := n;
                error := None; output_refs := refs |}, store')
        end
    end.

(** *** Orchestrator *)

Inductive RunStatus :=
  | RunPending
  | RunRunning
  | RunSucceeded
  | RunFailed
  | RunPartiallyFailed.

(** Modelled from the spec: the Execution Report of section 4.4, without
    its timestamps. *)
Record ExecutionReport := {
  report_run : string;
  overall : RunStatus;
  records : list StageOutcome
}.

Definition skipped (def : StageDef) : StageOutcome :=
  {| out_stage := stage_name def; status := Skipped; attempts := 0;
     error := None; output_refs := [] |}.

(** What a run leaves behind: the report, the store, and the positions of
    the stages that were handed to the Stage Runner, in order. *)
Record RunResult := {
  report : ExecutionReport;
  final_store : Store;
  started : list nat
}.

(** Modelled from the spec: the control loop of section 4.3.  Stages run in
    declared order from position [pos]; the first [Failed] outcome ends the
    run, and the stages behind it are recorded as [Skipped]. *)
Fixpoint run_stages (runId : string) (pos : nat) (defs : list StageDef) (store : Store)
    : list StageOutcome * RunStatus * Store * list nat :=
  match defs with
  | [] => ([], RunSucceeded, store, [])
  | def :: rest =>
      let '(o, store') := run def store runId in
      match status o with
      | Succeeded =>
          let '(os, st, store'', ps) := run_stages runId (S pos) rest store' in
          (o :: os, st, store'', pos :: ps)
      | _ => (o :: map skipped rest, RunFailed, store', [pos])
      end
  end.

Definition raw_input_set : string := "raw-input-set".
Definition final_document : string := "final-document".

(** Modelled from the spec: [execute(stageDefs, initialInputArtifacts)] of
    section 4.3 for the run [runId].  A run identifier that already has
    artifacts in the store is rejected with [RunAlreadyExists]; otherwise
    the input documents are stored as "raw-input-set" and the stages run. *)
Definition execute (store : Store) (runId : string) (stageDefs : list StageDef)
    (initialInputArtifacts : payload) : ErrorKind + RunResult :=
  match list_ store runId with
  | _ :: _ => inl RunAlreadyExists
  | [] =>
      match put store runId raw_input_set initialInputArtifacts "input" with
      | inl _ => inl RunAlreadyExists
      | inr (_, store0) =>
          let '(os, st, store', ps) := run_stages runId 0 stageDefs store0 in
          inr {| report := {| report_run := runId; overall := st; records := os |};
                 final_store := store';
                 started := ps |}
      end
  end.

(** Modelled from the spec: the fixed pipeline of section 2, with the
    collaborators and the budget of each stage left open. *)
Definition stage (name input output : string) (c : Collaborator) (budget : nat * nat)
    : StageDef :=
  {| stage_name := name; inputs := [input]; outputs := [output]; invoke := c;
     timeout := budget.1; maxRetries := budget.2 |}.

Definition pipeline (extraction synthesis markup compilation : Collaborator)
    (budget : nat → nat * nat) : list StageDef :=
  [ stage "extraction" raw_input_set "extracted-text" extraction (budget 0);
    stage "synthesis" "extracted-text" "synthesized-report" synthesis (budget 1);
    stage "markup-generation" "synthesized-report" "markup-source" markup (budget 2);
    stage "compilation" "markup-source" final_document compilation (budget 3) ].

(** Artifact names are unique within a run: no two stages (and no stage
    twice) declare the same output, and none declares the name under which
    the input documents are stored. *)
Definition distinct_outputs (defs : list StageDef) : bool :=
  bool_decide (NoDup (raw_input_set :: concat (map outputs defs))).



(** The outcome of one stage execution, and the payloads it hands to the
    collaborator. *)
Definition outcome (def : StageDef) (store : Store) (runId : string) : StageOutcome :=
  (run def store runId).1.
Definition store_after (def : StageDef) (store : Store) (runId : string) : Store :=
  (run def store runId).2.

Definition all_present (store : Store) (runId : string) (names : list string) : bool :=
  forallb (exists_ store runId) names.
Definition none_present (store : Store) (runId : string) (names : list string) : bool :=
  forallb (λ name, negb (exists_ store runId name)) names.

End Orchestrator.

(** ** Concrete worlds, files and stages *)

Module Examples.
Import NodeFs Routes Page.

(** A server started in [/srv/app] whose input directory exists and is
    empty. *)
Definition w0 : World :=
  {| cwd := ["srv"; "app"];
     disk := list_to_map [(["srv"], Dir); (["srv"; "app"], Dir);
                          (["srv"; "app"; "input"], Dir)];
     console := [] |}.

Definition pdf (name : string) (bytes : list byte) : File :=
  {| file_name := name; file_type := "application/pdf"; file_bytes := bytes |}.

Definition scan_v1 : File := pdf "scan.pdf" [x01].
Definition scan_v2 : File := pdf "scan.pdf" [x02].
Definition notes : File := pdf "notes.pdf" [x03; x04].

(** The world after [scan_v1] and [notes] were uploaded. *)
Definition w2 : World :=
  fetch_upload (fetch_upload w0 (selected scan_v1)) (selected notes).

(** [w2] with a directory "old" in the input directory. *)
Definition w3 : World :=
  set_disk w2 (<[["srv"; "app"; "input"; "old"] := Dir]> (disk w2)).

(** A name of [n] letters. *)
Definition letters (n : nat) : string := String.string_of_list_ascii (repeat "a"%char n).

(** A file that has an escape of the double quote in its name. *)
Definition quoted : File := pdf "a%22b.pdf" [x06].

Definition shift_enter : Page.KeyboardEvent := {| Page.shiftKey := true; Page.key := "Enter" |}.

End Examples.

Module PipelineExamples.
Import Orchestrator.

Definition bytes_of (n : nat) : payload := repeat x2a n.

(** A collaborator that answers every attempt with [r]. *)
Definition always (r : CollabResult) : Collaborator := λ _ _, r.

(** A collaborator that returns, for each declared output, the bytes of
    its inputs one after the other. *)
Definition echo : Collaborator := λ _ ins, Returned (λ _, concat ins).

(** A collaborator that is rate-limited on the first [n] attempts and
    returns from then on. *)
Definition rate_limited (n : nat) : Collaborator :=
  λ k ins, if Nat.leb k n then Raised RateLimited "quota exceeded" else echo k ins.

Definition syntax_error : Collaborator := always (Raised SyntaxError "undefined control sequence").

Definition budgets : nat → nat * nat := λ _, (60, 2).

(** The run "run-1" over three scanned documents. *)
Definition documents : payload := bytes_of 3.

(** Synthesis is rate-limited twice and then answers. *)
Definition good_pipeline : list StageDef := pipeline echo (rate_limited 2) echo echo budgets.

(** Synthesis reports a permanent error. *)
Definition bad_pipeline : list StageDef :=
  pipeline echo (always (Raised MalformedInput "empty input")) echo echo budgets.

Definition no_run : RunResult :=
  {| report := {| report_run := ""; overall := RunPending; records := [] |};
     final_store := ∅; started := [] |}.

Definition result_of (r : ErrorKind + RunResult) : RunResult :=
  match r with
  | inr res => res
  | inl _ => no_run
  end.

Definition good_run : RunResult := result_of (execute ∅ "run-1" good_pipeline documents).
Definition bad_run : RunResult := result_of (execute ∅ "run-1" bad_pipeline documents).





End PipelineExamples.

(** * The model at work *)

Section Behaviour.
Import NodeFs Routes Page Orchestrator Examples PipelineExamples.

Example path_join_plain : path_join ["srv"; "app"; "input"] "scan.pdf"
                          = ["srv"; "app"; "input"; "scan.pdf"].
Proof. reflexivity. Qed.

Example path_join_dots : path_join ["srv"; "app"; "input"] "../a/./b//c.pdf"
                         = ["srv"; "app"; "a"; "b"; "c.pdf"].
Proof. reflexivity. Qed.

Example path_join_trailing : path_join ["srv"; "app"; "input"] "scans/"
                             = ["srv"; "app"; "input"; "scans"; ""].
Proof. reflexivity. Qed.

Example path_join_empty : path_join ["srv"; "app"; "input"] "" = ["srv"; "app"; "input"].
Proof. reflexivity. Qed.

(** A file without a name would be written over the input directory itself:
    [writeFile] throws and the handler answers with the error. *)
Example upload_nameless : (POST_upload (upload_request (pdf "" [x01])) w0).1 = inr upload_failed.
Proof. vm_compute. reflexivity. Qed.

(** A name of 255 bytes is stored, one of 256 is refused by the file
    system. *)
Example upload_long_name :
  (POST_upload (upload_request (pdf (letters 255) [x01])) w0).1
    = inr (uploaded_ok (letters 255))
  ∧ POST_upload (upload_request (pdf (letters 256) [x01])) w0
    = (inr upload_failed, logged w0 "Error uploading file:").
Proof. vm_compute. done. Qed.

(** The server reads an escape that the name of a file has of its own as
    the character it stands for: the file is stored under another name than
    the one selected. *)
Example upload_escaped_name :
  multipart_name "a%22b.pdf" = String "a" (String dquote "b.pdf")
  ∧ multipart_name "a%0ab.pdf" = String "a" (String lf "b.pdf")
  ∧ multipart_name (String "a" (String dquote "b.pdf")) = String "a" (String dquote "b.pdf")
  ∧ children (disk (uploadFiles [] (run_of [quoted]) w0).2) (input_dir w0)
    = [String "a" (String dquote "b.pdf")].
Proof. vm_compute. done. Qed.

(** A run whose second upload fails on the network: the loop ends there
    and the selection stays.  When the request was lost, the input
    directory holds the first file only; when the request of clearing is
    lost, the server is as it was. *)
Example upload_run_rejected :
  (uploadFiles [Answered; Answered; LostResponse] (run_of [scan_v2; notes; quoted]) w2).1
    = run_of [scan_v2; notes; quoted]
  ∧ (uploadFiles [Answered; Answered; LostRequest] (run_of [scan_v2; notes; quoted]) w2).1
    = run_of [scan_v2; notes; quoted]
  ∧ children (disk (uploadFiles [Answered; Answered; LostRequest]
                      (run_of [scan_v2; notes; quoted]) w2).2) (input_dir w2)
    = ["scan.pdf"]
  ∧ (uploadFiles [LostRequest] (run_of [scan_v2; notes; quoted]) w2).2 = w2.
Proof. vm_compute. done. Qed.

(** A 'file' field that is a non-empty string has no [arrayBuffer]. *)
Example upload_string_field :
  (POST_upload {| body := Some [("file", FString "scan.pdf")] |} w0).1 = inr upload_failed.
Proof. vm_compute. reflexivity. Qed.

(** A directory inside the input directory cannot be unlinked: the
    clear-input handler answers with the error, yet the files next to it
    are gone. *)
Example clear_with_directory :
  (POST_clear_input (set_disk w2 (<[["srv"; "app"; "input"; "old"] := Dir]> (disk w2)))).1
    = inr [("success", JBool false); ("message", JString "Error clearing input directory")]
  ∧ children (disk (POST_clear_input
                      (set_disk w2 (<[["srv"; "app"; "input"; "old"] := Dir]> (disk w2)))).2)
             ["srv"; "app"; "input"] = ["old"].
Proof. vm_compute. done. Qed.

(** Choosing [scan_v1] again and [notes] for the first time adds [notes]
    only; [scan_v2] has the name of [scan_v1] and its size, and is skipped
    too. *)
Example select_again :
  select [selected scan_v1] (Some [scan_v1; notes; scan_v2]) = [selected scan_v1; selected notes].
Proof. reflexivity. Qed.

Example good_run_report :
  overall (report good_run) = RunSucceeded
  ∧ map (λ o, (out_stage o, status o, attempts o)) (records (report good_run))
    = [("extraction", Succeeded, 1); ("synthesis", Succeeded, 3);
       ("markup-generation", Succeeded, 1); ("compilation", Succeeded, 1)]
  ∧ started good_run = [0; 1; 2; 3].
Proof. vm_compute. done. Qed.

Example bad_run_report :
  overall (report bad_run) = RunFailed
  ∧ map (λ o, (out_stage o, status o, attempts o)) (records (report bad_run))
    = [("extraction", Succeeded, 1); ("synthesis", Failed, 1);
       ("markup-generation", Skipped, 0); ("compilation", Skipped, 0)]
  ∧ started bad_run = [0; 1].
Proof. vm_compute. done. Qed.

(** A second run under the identifier of the first is rejected. *)
Example rerun_rejected :
  execute (final_store good_run) "run-1" good_pipeline documents = inl RunAlreadyExists.
Proof. vm_compute. reflexivity. Qed.

End Behaviour.

(** * Properties of the route handlers and of the page *)

Section RouteFacts.
Import NodeFs Routes.

Implicit Types (w : World) (p : path) (d : gmap path node).

Lemma removelast_shorter p : p ≠ [] → removelast p ≠ p.
Proof.
  intros Hp Heq. apply (f_equal (@length string)) in Heq.
  rewrite removelast_firstn_len, length_take in Heq.
  destruct p; [done | simpl in Heq; lia].
Qed.

Lemma path_bytes_app p q : path_bytes (p ++ q) = (path_bytes p + path_bytes q)%nat.
Proof. induction p as [|c p IH]; simpl; [done | rewrite IH; lia]. Qed.

(** A usable path is made of entry names, and what it is cut down to is
    usable. *)
Lemma usable_app p q : usable (p ++ q) = true → usable p = true ∧ usable q = true.
Proof.
  unfold usable. rewrite forallb_app, path_bytes_app.
  intros [[Hp Hq]%andb_true_iff Hlen%Nat.ltb_lt]%andb_true_iff.
  rewrite Hp, Hq. simpl. split; apply Nat.ltb_lt; lia.
Qed.

Lemma usable_last p c : usable (p ++ [c]) = true → valid_name c = true.
Proof.
  intros [_ Hc]%usable_app. unfold usable in Hc. simpl in Hc.
  by apply andb_true_iff in Hc as [[[Hv _]%andb_true_iff _]%andb_true_iff _].
Qed.

Lemma usable_valid p : usable p = true → forallb valid_name p = true.
Proof.
  unfold usable. intros [Hall _]%andb_true_iff.
  apply forallb_forall. intros c Hc.
  by apply (proj1 (forallb_forall _ _) Hall c), andb_true_iff in Hc as [Hv _].
Qed.

Lemma valid_removelast p : usable p = true → usable (removelast p) = true.
Proof.
  destruct (decide (p = [])) as [-> | Hp]; [done |].
  rewrite (app_removelast_last "" Hp) at 1. by intros [H _]%usable_app.
Qed.

Lemma entry_insert_ne d p q n : p ≠ q → entry (<[p := n]> d) q = entry d q.
Proof.
  intros Hne. unfold entry. destruct (usable q); [| done].
  destruct q; [done |]. by rewrite lookup_insert_ne.
Qed.

Lemma entry_insert_eq d p n :
  usable p = true → p ≠ [] → entry (<[p := n]> d) p = Some n.
Proof.
  intros Hv Hp. unfold entry. rewrite Hv.
  destruct p; [done |]. by rewrite lookup_insert_eq.
Qed.

Lemma entry_Some_lookup d p n : entry d p = Some n → p ≠ [] → d !! p = Some n.
Proof.
  unfold entry. destruct (usable p); [| done]. by destruct p.
Qed.

(** When [writeFile] returns, the file is on the disk; and it returns
    exactly when the path names a place in an existing directory that is not
    itself a directory. *)
Lemma writeFile_ok p buffer w u w' :
  writeFile p buffer w = (inr u, w') →
  w' = set_disk w (<[p := Reg buffer]> (disk w))
  ∧ usable p = true
  ∧ entry (disk w) (parent p) = Some Dir
  ∧ entry (disk w) p ≠ Some Dir.
Proof.
  unfold writeFile. destruct (usable p) eqn:Hv; simpl; [| done].
  destruct (entry (disk w) (parent p)) as [[?|]|] eqn:Hpar; try done.
  destruct (entry (disk w) p) as [[?|]|] eqn:Hp; try done;
    intros [= <- <-]; done.
Qed.

Lemma writeFile_run p buffer w :
  usable p = true →
  entry (disk w) (parent p) = Some Dir →
  entry (disk w) p ≠ Some Dir →
  writeFile p buffer w = (inr tt, set_disk w (<[p := Reg buffer]> (disk w))).
Proof.
  intros Hv Hpar Hp. unfold writeFile. rewrite Hv, Hpar. simpl.
  destruct (entry (disk w) p) as [[?|]|]; done.
Qed.

Lemma writeFile_cwd p buffer w : cwd (writeFile p buffer w).2 = cwd w.
Proof.
  unfold writeFile. destruct (usable p); simpl; [| done].
  destruct (entry (disk w) (parent p)) as [[?|]|]; try done.
  destruct (entry (disk w) p) as [[?|]|]; done.
Qed.

(** The upload of a file, step by step: the handler answers with success
    when [writeFile] returned and with the error message when it threw. *)
Lemma POST_upload_file (f : File) w :
  POST_upload (upload_request f) w =
  match writeFile (stored_at w (file_name f)) (file_bytes f) w with
  | (inr _, w') =>
      (inr [("success", JBool true);
            ("message", JString "File uploaded successfully");
            ("filename", JString (file_name f))], w')
  | (inl _, w') =>
      (inr [("success", JBool false); ("message", JString "Error uploading file")],
       {| cwd := cwd w'; disk := disk w'; console := console w' ++ ["Error uploading file:"] |})
  end.
Proof.
  unfold POST_upload, try_catch, upload_request, stored_at, input_dir. simpl.
  unfold mbind, IO_bind, io_bind, mret, IO_ret, io_ret, process_cwd. simpl.
  destruct (writeFile _ _ w) as [[e|[]] w']; reflexivity.
Qed.

End RouteFacts.

Section UploadRoute.
Import NodeFs Routes Examples.

Implicit Types (w : World) (f : File) (data : FormData).

Lemma FormData_get_None data key : key ∉ data.*1 → FormData_get data key = None.
Proof.
  induction data as [|[k v] data IH]; [done |].
  simpl. intros Hnot. apply not_elem_of_cons in Hnot as [Hne Hrest].
  destruct (String.eqb_spec k key) as [-> | _]; [done | by apply IH].
Qed.

(** Every way through the upload handler.  It never throws: its own
    [catch] turns every exception into the error response. *)
Lemma POST_upload_cases request w :
  POST_upload request w =
  match body request with
  | None =>
      (inr [("success", JBool false); ("message", JString "Error uploading file")],
       {| cwd := cwd w; disk := disk w; console := console w ++ ["Error uploading file:"] |})
  | Some data =>
      match FormData_get data "file" with
      | Some (FFile f) => POST_upload (upload_request f) w
      | Some (FString s) =>
          if String.eqb s "" then
            (inr [("success", JBool false); ("message", JString "No file received")], w)
          else
            (inr [("success", JBool false); ("message", JString "Error uploading file")],
             {| cwd := cwd w; disk := disk w;
                console := console w ++ ["Error uploading file:"] |})
      | None =>
          (inr [("success", JBool false); ("message", JString "No file received")], w)
      end
  end.
Proof.
  destruct request as [[data|]]; simpl; [| reflexivity].
  unfold POST_upload at 1. unfold try_catch, formData. simpl.
  unfold mbind, IO_bind, io_bind, mret, IO_ret, io_ret. simpl.
  destruct (FormData_get data "file") as [[s|f]|] eqn:Hget; simpl.
  - destruct (String.eqb s ""); reflexivity.
  - rewrite POST_upload_file. unfold process_cwd, stored_at, input_dir. simpl.
    destruct (writeFile _ _ w) as [[e|[]] w']; reflexivity.
  - reflexivity.
Qed.

Lemma upload_file_succeeded f w r w' :
  POST_upload (upload_request f) w = (inr r, w') →
  succeeded r = true →
  r = uploaded_ok (file_name f)
  ∧ writeFile (stored_at w (file_name f)) (file_bytes f) w = (inr tt, w').
Proof.
  rewrite POST_upload_file.
  destruct (writeFile _ _ w) as [[e|[]] w1]; intros [= <- <-]; [done |].
  intros _. done.
Qed.

(** C6: when the upload handler answers with success, the bytes of the
    uploaded file are on the disk, under the path the handler gives to the
    file's name, in the world the handler returns with: the write was
    awaited before the response was built, nothing is left pending. *)
Theorem upload_success_is_written request w r w' :
  POST_upload request w = (inr r, w') →
  succeeded r = true →
  ∃ data f,
    body request = Some data
    ∧ FormData_get data "file" = Some (FFile f)
    ∧ disk w' !! stored_at w (file_name f) = Some (Reg (file_bytes f)).
Proof.
  rewrite POST_upload_cases.
  destruct (body request) as [data|]; [| by intros [= <- <-]].
  destruct (FormData_get data "file") as [[s|f]|] eqn:Hget.
  - destruct (String.eqb s ""); by intros [= <- <-].
  - intros Hrun Hok. exists data, f. split_and!; [done.. |].
    destruct (upload_file_succeeded _ _ _ _ Hrun Hok) as [_ Hwrite].
    apply writeFile_ok in Hwrite as (-> & _ & _ & _).
    simpl. apply lookup_insert_eq.
  - by intros [= <- <-].
Qed.

Lemma upload_success_is_written_witness :
  ∃ data f,
    body (upload_request scan_v1) = Some data
    ∧ FormData_get data "file" = Some (FFile f)
    ∧ disk (POST_upload (upload_request scan_v1) w0).2 !! stored_at w0 (file_name f)
      = Some (Reg (file_bytes f)).
Proof.
  apply (upload_success_is_written (upload_request scan_v1) w0
           (uploaded_ok "scan.pdf") (POST_upload (upload_request scan_v1) w0).2).
  - vm_compute. reflexivity.
  - reflexivity.
Defined.

(** C9: a request whose form data has no 'file' field is answered with
    [{success: false, message: 'No file received'}], and the world (the disk
    with the input directory, and the console) is left as it was. *)
Theorem upload_without_file_field data w :
  "file" ∉ data.*1 →
  POST_upload {| body := Some data |} w =
  (inr [("success", JBool false); ("message", JString "No file received")], w).
Proof.
  intros Hno. rewrite POST_upload_cases. simpl.
  by rewrite (FormData_get_None _ _ Hno).
Qed.

Lemma upload_without_file_field_witness :
  POST_upload {| body := Some [("comment", FString "see attachment")] |} w0 =
  (inr [("success", JBool false); ("message", JString "No file received")], w0).
Proof.
  apply (upload_without_file_field [("comment", FString "see attachment")] w0).
  vm_compute. intros H. repeat (inversion H as [|? ? ? H']; clear H; rename H' into H).
Defined.

End UploadRoute.

Section UploadTwice.
Import NodeFs Routes Examples.

Implicit Types (w : World) (f : File).

Lemma stored_at_set_disk w d name : stored_at (set_disk w d) name = stored_at w name.
Proof. reflexivity. Qed.

(** C1 (as the code has it): the store of the upload route is keyed by the
    file name alone and has no conflict error.  After a successful upload,
    a second upload under the same name succeeds as well and replaces the
    stored bytes by its own, whether or not the two payloads are equal. *)
Theorem upload_same_name_replaces f1 f2 w r1 w1 :
  file_name f1 = file_name f2 →
  POST_upload (upload_request f1) w = (inr r1, w1) →
  succeeded r1 = true →
  ∃ w2,
    POST_upload (upload_request f2) w1 = (inr (uploaded_ok (file_name f2)), w2)
    ∧ disk w1 !! stored_at w (file_name f1) = Some (Reg (file_bytes f1))
    ∧ disk w2 !! stored_at w (file_name f1) = Some (Reg (file_bytes f2)).
Proof.
  intros Hname Hrun Hok.
  destruct (upload_file_succeeded _ _ _ _ Hrun Hok) as [_ Hwrite].
  apply writeFile_ok in Hwrite as (-> & Hvalid & Hparent & Hnodir).
  set (p := stored_at w (file_name f1)) in *.
  assert (Hp : p ≠ []).
  { intros Hnil. apply Hnodir. by rewrite Hnil. }
  eexists. rewrite POST_upload_file, stored_at_set_disk, <- Hname. fold p.
  rewrite writeFile_run; simpl.
  - split_and!; [reflexivity | apply lookup_insert_eq |].
    rewrite insert_insert_eq. apply lookup_insert_eq.
  - done.
  - rewrite entry_insert_ne; [done |]. intros Heq. by apply (removelast_shorter p).
  - by rewrite entry_insert_eq.
Qed.

Lemma upload_same_name_replaces_witness :
  ∃ w2,
    POST_upload (upload_request scan_v2) (POST_upload (upload_request scan_v1) w0).2
      = (inr (uploaded_ok (file_name scan_v2)), w2)
    ∧ disk (POST_upload (upload_request scan_v1) w0).2 !! stored_at w0 (file_name scan_v1)
      = Some (Reg (file_bytes scan_v1))
    ∧ disk w2 !! stored_at w0 (file_name scan_v1) = Some (Reg (file_bytes scan_v2)).
Proof.
  apply (upload_same_name_replaces scan_v1 scan_v2 w0 (uploaded_ok "scan.pdf")).
  - reflexivity.
  - vm_compute. reflexivity.
  - reflexivity.
Defined.

(** C1 (as stated) fails: ["scan.pdf"] is uploaded with the byte 01 and then
    again with the byte 02.  The second upload is answered with success, not
    with a conflict, and the stored payload is then the second one. *)
Lemma upload_conflict_counterexample :
  (POST_upload (upload_request scan_v1) w0).1 = inr (uploaded_ok "scan.pdf")
  ∧ disk (POST_upload (upload_request scan_v1) w0).2 !! stored_at w0 "scan.pdf"
    = Some (Reg [x01])
  ∧ (POST_upload (upload_request scan_v2) (POST_upload (upload_request scan_v1) w0).2).1
    = inr (uploaded_ok "scan.pdf")
  ∧ disk (POST_upload (upload_request scan_v2)
            (POST_upload (upload_request scan_v1) w0).2).2 !! stored_at w0 "scan.pdf"
    = Some (Reg [x02]).
Proof. vm_compute. done. Qed.

End UploadTwice.

Section ClearRoute.
Import NodeFs Routes Examples.

Implicit Types (w : World) (p dir : path) (d : gmap path node) (c : string).

Lemma split_slash_plain c :
  forallb plain_char (String.list_ascii_of_string c) = true → split_slash c = [c].
Proof.
  induction c as [|a c IH]; [done |].
  simpl. intros [[Ha _]%andb_true_iff Hc]%andb_true_iff.
  apply negb_true_iff in Ha. rewrite Ha, (IH Hc). done.
Qed.

Lemma ends_with_slash_plain c :
  forallb plain_char (String.list_ascii_of_string c) = true → ends_with_slash c = false.
Proof.
  induction c as [|a c IH]; [done |].
  simpl. intros [[Ha _]%andb_true_iff Hc]%andb_true_iff.
  apply negb_true_iff in Ha. destruct c; [done | by apply IH].
Qed.

(** Joining a directory and the name of one of its entries gives the path
    of the entry. *)
Lemma path_join_child dir c : valid_name c = true → path_join dir c = dir ++ [c].
Proof.
  unfold valid_name.
  intros [[[H1 H2]%andb_true_iff H3]%andb_true_iff H4]%andb_true_iff.
  apply negb_true_iff in H1, H2, H3.
  unfold path_join.
  rewrite (split_slash_plain _ H4), (ends_with_slash_plain _ H4). simpl.
  unfold push_segment. by rewrite H1, H2, H3.
Qed.

Lemma strip_prefix_Some dir p rest : strip_prefix dir p = Some rest ↔ p = dir ++ rest.
Proof.
  revert p. induction dir as [|x dir IH]; intros p; simpl.
  - split; [by intros [= ->] | by intros ->].
  - destruct p as [|y p]; [done |].
    destruct (String.eqb_spec x y) as [-> | Hne].
    + rewrite IH. split; [by intros -> | by intros [= ->]].
    + split; [done | intros [= ? _]; done].
Qed.

Lemma child_name_Some dir p c :
  child_name dir p = Some c ↔ p = dir ++ [c] ∧ usable (dir ++ [c]) = true.
Proof.
  unfold child_name. destruct (strip_prefix dir p) as [rest|] eqn:Hs.
  - apply strip_prefix_Some in Hs as ->.
    destruct rest as [|c' [|? ?]].
    + split; [done |]. intros [Heq _]. by apply app_inv_head in Heq.
    + destruct (usable (dir ++ [c'])) eqn:Hv.
      * split; [by intros [= ->] |]. intros [Heq _]. by apply app_inv_head in Heq as [= ->].
      * split; [done |]. intros [Heq Hv']. apply app_inv_head in Heq as [= ->]. congruence.
    + split; [done |]. intros [Heq _]. by apply app_inv_head in Heq.
  - split; [done |]. intros [-> _].
    assert (Hs' : strip_prefix dir (dir ++ [c]) = Some [c]) by by apply strip_prefix_Some.
    congruence.
Qed.

(** The entries that [readdir] lists are the names under which the disk
    holds something in the directory, at a path the system accepts. *)
Lemma elem_of_children d dir c :
  c ∈ children d dir ↔ usable (dir ++ [c]) = true ∧ is_Some (d !! (dir ++ [c])).
Proof.
  unfold children. rewrite list_elem_of_omap. split.
  - intros ([p n] & Hin & Hc). simpl in Hc.
    apply child_name_Some in Hc as [-> Hv].
    apply elem_of_map_to_list in Hin. eauto.
  - intros [Hv [n Hn]]. exists (dir ++ [c], n). split.
    + by apply elem_of_map_to_list.
    + simpl. by apply child_name_Some.
Qed.

(** [readdir] lists no entry twice, so the length of its list is the number
    of entries. *)
Lemma children_NoDup d dir : NoDup (children d dir).
Proof.
  unfold children.
  assert (Hinj : ∀ e1 e2 c, e1 ∈ map_to_list d → e2 ∈ map_to_list d →
                   child_name dir e1.1 = Some c → child_name dir e2.1 = Some c → e1 = e2).
  { intros [p1 n1] [p2 n2] c H1 H2 [Hp1 _]%child_name_Some [Hp2 _]%child_name_Some.
    simpl in *. subst p1 p2.
    by rewrite (map_to_list_unique d _ _ _ H1 H2). }
  pose proof (NoDup_map_to_list d) as Hnd.
  induction (map_to_list d) as [|e l IH]; simpl; [constructor |].
  apply NoDup_cons in Hnd as [He Hnd].
  assert (Hrest : NoDup (omap (λ e, child_name dir e.1) l)).
  { apply IH; [| done]. intros e1 e2 c H1 H2. apply Hinj; by right. }
  destruct (child_name dir e.1) as [c|] eqn:Hc; [| done].
  apply NoDup_cons. split; [| done].
  intros (e' & He' & Hc')%list_elem_of_omap.
  apply He. rewrite (Hinj e e' c); [done | by left | by right | done..].
Qed.

(** What a successful [Promise.all] over [unlink] calls has done. *)
Lemma unlink_all_ok dir (cs : list string) w l w' :
  Promise_all (map (λ c, unlink (dir ++ [c])) cs) w = (inr l, w') →
  cwd w' = cwd w
  ∧ length l = length cs
  ∧ (∀ c, c ∈ cs → disk w' !! (dir ++ [c]) = None)
  ∧ (∀ p, (∀ c, c ∈ cs → p ≠ dir ++ [c]) → disk w' !! p = disk w !! p)
  ∧ disk w' ⊆ disk w.
Proof.
  revert w l. induction cs as [|c cs IH]; intros w l; simpl.
  - intros [= <- <-]. split_and!; try done. intros c Hc. by apply elem_of_nil in Hc.
  - unfold unlink at 1.
    destruct (entry (disk w) (dir ++ [c])) as [[content|]|]; simpl;
      try (destruct (Promise_all _ _); discriminate).
    destruct (Promise_all _ (set_disk w _)) as [[e|l'] w1] eqn:Hrest; [done |].
    intros [= <- <-].
    apply IH in Hrest as (Hcwd & Hlen & Hgone & Hkept & Hsub). simpl in *.
    split_and!.
    + done.
    + by rewrite Hlen.
    + intros c' [-> | Hc']%elem_of_cons; [| by apply Hgone].
      eapply lookup_weaken_None; [| exact Hsub]. apply lookup_delete_eq.
    + intros p Hp. rewrite Hkept.
      * apply lookup_delete_ne. intros Heq. by apply (Hp c); [left |].
      * intros c' Hc'. apply Hp. by right.
    + etrans; [exact Hsub | apply delete_subseteq].
Qed.

(** The clear-input handler, on a world whose input directory can be
    listed. *)
Lemma POST_clear_input_listed w :
  entry (disk w) (input_dir w) = Some Dir →
  POST_clear_input w =
  match Promise_all (map (λ c, unlink (input_dir w ++ [c]))
                         (children (disk w) (input_dir w))) w with
  | (inr _, w') =>
      (inr [("success", JBool true);
            ("message", JString "Input directory cleared successfully");
            ("deletedFiles", JNumber (length (children (disk w) (input_dir w))))], w')
  | (inl _, w') =>
      (inr [("success", JBool false);
            ("message", JString "Error clearing input directory")],
       {| cwd := cwd w'; disk := disk w';
          console := console w' ++ ["Error clearing input directory:"] |})
  end.
Proof.
  intros Hdir. unfold POST_clear_input, try_catch.
  unfold mbind, IO_bind, io_bind, mret, IO_ret, io_ret, process_cwd, readdir. simpl.
  fold (input_dir w). rewrite Hdir.
  assert (Hmap : map (λ file, unlink (path_join (input_dir w) file))
                     (children (disk w) (input_dir w))
                 = map (λ c, unlink (input_dir w ++ [c]))
                       (children (disk w) (input_dir w))).
  { apply map_ext_in. intros c Hc%list_elem_of_In.
    apply elem_of_children in Hc as [Hv%usable_last _]. by rewrite path_join_child. }
  rewrite Hmap.
  destruct (Promise_all _ w) as [[e|l] w']; reflexivity.
Qed.

Lemma POST_clear_input_unlisted w r w' :
  entry (disk w) (input_dir w) ≠ Some Dir →
  POST_clear_input w = (inr r, w') → succeeded r = false.
Proof.
  intros Hdir. unfold POST_clear_input, try_catch.
  unfold mbind, IO_bind, io_bind, mret, IO_ret, io_ret, process_cwd, readdir. simpl.
  fold (input_dir w).
  destruct (entry (disk w) (input_dir w)) as [[content|]|]; try done;
    by intros [= <- <-].
Qed.

(** What a successful answer of the clear-input handler tells about the
    world it returns with. *)
Lemma clear_input_success w r w' :
  POST_clear_input w = (inr r, w') →
  succeeded r = true →
  cwd w' = cwd w
  ∧ entry (disk w') (input_dir w) = Some Dir
  ∧ children (disk w') (input_dir w) = []
  ∧ field r "deletedFiles" = Some (JNumber (length (children (disk w) (input_dir w)))).
Proof.
  intros Hrun Hok.
  assert (Hcase : entry (disk w) (input_dir w) = Some Dir
                  ∨ entry (disk w) (input_dir w) ≠ Some Dir).
  { destruct (entry (disk w) (input_dir w)) as [[content|]|]; [right | left | right]; done. }
  destruct Hcase as [Hdir | Hdir];
    [| by rewrite (POST_clear_input_unlisted _ _ _ Hdir Hrun) in Hok].
  rewrite (POST_clear_input_listed _ Hdir) in Hrun.
  destruct (Promise_all _ w) as [[e|l] w1] eqn:Hall;
    injection Hrun as <- <-; [done |].
  apply unlink_all_ok in Hall as (Hcwd & _ & Hgone & Hkept & Hsub).
  split_and!; [done | | | done].
  - revert Hdir. unfold entry. destruct (usable (input_dir w)); [| done].
    destruct (input_dir w) as [|x q] eqn:Hq; [done |].
    rewrite Hkept; [done |]. intros c _ Heq.
    apply (f_equal (@length string)) in Heq. rewrite length_app in Heq. simpl in Heq. lia.
  - apply elem_of_nil_inv. intros c [Hv [n Hn]]%elem_of_children.
    assert (Hbefore : c ∈ children (disk w) (input_dir w)).
    { apply elem_of_children. split; [done |]. exists n.
      by apply (lookup_weaken _ _ _ _ Hn Hsub). }
    rewrite (Hgone c Hbefore) in Hn. done.
Qed.

(** C7: when the clear-input handler answers with success, the input
    directory is still there and lists no entry, and the [deletedFiles] of
    the answer is the number of entries it listed before the call. *)
Theorem clear_input_removes_all w r w' :
  POST_clear_input w = (inr r, w') →
  succeeded r = true →
  readdir (input_dir w) w' = (inr [], w')
  ∧ field r "deletedFiles" = Some (JNumber (length (children (disk w) (input_dir w)))).
Proof.
  intros Hrun Hok.
  destruct (clear_input_success _ _ _ Hrun Hok) as (_ & Hdir & Hnone & Hcount).
  split; [| done]. unfold readdir. by rewrite Hdir, Hnone.
Qed.

Lemma clear_input_removes_all_witness :
  readdir (input_dir w2) (POST_clear_input w2).2 = (inr [], (POST_clear_input w2).2)
  ∧ field [("success", JBool true);
           ("message", JString "Input directory cleared successfully");
           ("deletedFiles", JNumber 2)] "deletedFiles"
    = Some (JNumber (length (children (disk w2) (input_dir w2)))).
Proof.
  apply (clear_input_removes_all w2
           [("success", JBool true);
            ("message", JString "Input directory cleared successfully");
            ("deletedFiles", JNumber 2)]).
  - vm_compute. reflexivity.
  - reflexivity.
Defined.

End ClearRoute.

Section FileSelection.
Import Routes Page.

Implicit Types (uploadedFiles : list UploadedFile) (files : list File) (f : File).

Lemma fileExists_spec uploadedFiles f :
  fileExists uploadedFiles f = true ↔ already_selected uploadedFiles f.
Proof.
  unfold fileExists, already_selected. rewrite existsb_exists. split.
  - intros (e & Hin & [Hn Hs]%andb_true_iff).
    exists e. split_and!; [by apply list_elem_of_In | by apply String.eqb_eq | by apply Nat.eqb_eq].
  - intros (e & Hin & Hn & Hs). exists e. split; [by apply list_elem_of_In |].
    apply andb_true_iff. split; [by apply String.eqb_eq | by apply Nat.eqb_eq].
Qed.

Lemma selected_inj f g : selected f = selected g → f = g.
Proof. intros H. by apply (f_equal file) in H. Qed.

(** The files the loop collects are, in the order chosen, those that match
    no file of the selection it compares against. *)
Lemma elem_of_collect_new uploadedFiles files u :
  u ∈ collect_new uploadedFiles files ↔
  ∃ f, f ∈ files ∧ u = selected f ∧ ¬ already_selected uploadedFiles f.
Proof.
  induction files as [|g files IH]; simpl.
  - split; [by intros ?%elem_of_nil | by intros (f & ?%elem_of_nil & _)].
  - destruct (fileExists uploadedFiles g) eqn:Hg; simpl.
    + rewrite IH. split.
      * intros (f & Hf & Hu & Hnew). exists f. split; [by right | done].
      * intros (f & [-> | Hf]%elem_of_cons & Hu & Hnew).
        -- by apply fileExists_spec in Hg.
        -- by exists f.
    + rewrite elem_of_cons, IH. split.
      * intros [-> | (f & Hf & Hu & Hnew)].
        -- exists g. split_and!; [by left | done |].
           intros Hold%fileExists_spec. congruence.
        -- exists f. split; [by right | done].
      * intros (f & [-> | Hf]%elem_of_cons & Hu & Hnew); [by left |].
        right. by exists f.
Qed.

(** C10: [handleFileSelect] appends to the selection exactly the chosen
    files for which no file of the selection before the event has both the
    same name and the same size; a chosen file that matches one in name and
    size is skipped. *)
Theorem handleFileSelect_adds_only_new uploadedFiles files :
  ∃ newFiles,
    (∃ update, handleFileSelect uploadedFiles (Some files) = Some update
               ∧ ∀ prev, update prev = prev ++ newFiles)
    ∧ select uploadedFiles (Some files) = uploadedFiles ++ newFiles
    ∧ (∀ u, u ∈ newFiles →
         ∃ f, f ∈ files ∧ u = selected f ∧ ¬ already_selected uploadedFiles f)
    ∧ (∀ f, f ∈ files → ¬ already_selected uploadedFiles f → selected f ∈ newFiles)
    ∧ (∀ f, f ∈ files → already_selected uploadedFiles f → selected f ∉ newFiles).
Proof.
  exists (collect_new uploadedFiles files). split_and!.
  - eexists. split; [reflexivity | done].
  - reflexivity.
  - intros u. by rewrite elem_of_collect_new.
  - intros f Hf Hnew. apply elem_of_collect_new. by exists f.
  - intros f Hf Hold (g & Hg & Heq & Hnew)%elem_of_collect_new.
    apply selected_inj in Heq as <-. done.
Qed.

End FileSelection.

Section UploadRuns.
Import NodeFs Routes Page Examples.

Implicit Types (w wk : World) (st : State) (u : UploadedFile).
Implicit Types (net : list FetchOutcome) (batch : list UploadedFile).

Lemma writeFile_failed p buffer w e w' : writeFile p buffer w = (inl e, w') → w' = w.
Proof.
  unfold writeFile. destruct (usable p); simpl; [| by intros [= _ <-]].
  destruct (entry (disk w) (parent p)) as [[?|]|]; try by intros [= _ <-].
  destruct (entry (disk w) p) as [[?|]|]; by intros [= _ <-].
Qed.

(** One upload that reaches the server either leaves the disk as it is (the
    handler answered with the error) or stores the file under the path of
    the name the server received. *)
Lemma fetch_upload_disk w u :
  cwd (fetch_upload w u) = cwd w
  ∧ (disk (fetch_upload w u) = disk w
     ∨ disk (fetch_upload w u)
       = <[stored_at w (multipart_name (file_name (file u))) := Reg (file_bytes (file u))]>
           (disk w)).
Proof.
  unfold fetch_upload. rewrite POST_upload_file. cbn [received file_name file_bytes].
  destruct (writeFile _ _ w) as [[e|[]] w'] eqn:Hwrite; simpl.
  - apply writeFile_failed in Hwrite as ->. by split; [| left].
  - apply writeFile_ok in Hwrite as (-> & _). by split; [| right].
Qed.

(** The loop leaves the server as the uploads of the files it got to leave
    it: of all of them when it ran to its end, of the first few when a
    [fetch] was rejected. *)
Lemma upload_all_prefix net batch wk :
  ∃ k, (upload_all net batch wk).2 = foldl fetch_upload wk (take k batch).
Proof.
  revert net wk. induction batch as [|u batch IH]; intros net wk; [by exists 0%nat |].
  simpl. unfold mbind, IO_bind, io_bind, fetch.
  destruct (hd Answered net).
  - destruct (IH (tl net) (fetch_upload wk u)) as [k Hk]. by exists (S k).
  - by exists 0%nat.
  - by exists 1%nat.
Qed.

Lemma upload_all_done net batch wk x :
  (upload_all net batch wk).1 = inr x →
  (upload_all net batch wk).2 = foldl fetch_upload wk batch.
Proof.
  revert net wk. induction batch as [|u batch IH]; intros net wk; [done |].
  simpl. unfold mbind, IO_bind, io_bind, fetch.
  destruct (hd Answered net); [apply IH | done..].
Qed.

Lemma upload_all_answered net batch wk :
  Forall (λ o, o = Answered) net → (upload_all net batch wk).1 = inr tt.
Proof.
  revert net wk. induction batch as [|u batch IH]; intros net wk Hnet; [done |].
  simpl. unfold mbind, IO_bind, io_bind, fetch.
  destruct Hnet as [|o net -> Hnet]; simpl; by apply IH.
Qed.

(** A run that passes the guard: the server is left as by the clearing,
    unless its request was lost, followed by the uploads the loop got to. *)
Lemma uploadFiles_run net st w :
  uploadedFiles st ≠ [] → isUploading st = false →
  ∃ k, (uploadFiles net st w).2
       = foldl fetch_upload
           (if reaches (hd Answered net) then fetch_clear_input w else w)
           (take k (uploadedFiles st)).
Proof.
  intros Hsel Hidle. unfold uploadFiles. rewrite Hidle, orb_false_r.
  destruct (uploadedFiles st) as [|u0 us] eqn:Hus; [done |]. cbn [length Nat.eqb].
  unfold mbind, IO_bind, io_bind, fetch.
  destruct (hd Answered net); cbn [reaches].
  - fold (fetch_clear_input w).
    destruct (upload_all_prefix (tl net) (u0 :: us) (fetch_clear_input w)) as [k Hk].
    exists k. rewrite <- Hk. by destruct (upload_all _ _ _) as [[e | []] w'].
  - by exists 0%nat.
  - by exists 0%nat.
Qed.

(** The selection is emptied only by a run in which every request was
    answered. *)
Lemma uploadFiles_done net st w :
  uploadedFiles st ≠ [] → isUploading st = false →
  uploadedFiles (uploadFiles net st w).1 = [] →
  (uploadFiles net st w).2 = foldl fetch_upload (fetch_clear_input w) (uploadedFiles st).
Proof.
  intros Hsel Hidle. unfold uploadFiles. rewrite Hidle, orb_false_r.
  destruct (uploadedFiles st) as [|u0 us] eqn:Hus; [done |]. cbn [length Nat.eqb].
  unfold mbind, IO_bind, io_bind, fetch.
  destruct (hd Answered net); [| done..].
  fold (fetch_clear_input w).
  pose proof (upload_all_done (tl net) (u0 :: us) (fetch_clear_input w)) as Hdone.
  destruct (upload_all _ _ _) as [[e | []] w']; [done |].
  intros _. by apply (Hdone tt).
Qed.

Lemma only_from_upload us w0 w u :
  u ∈ us → only_from us w0 w → only_from us w0 (fetch_upload w u).
Proof.
  intros Hu [Hcwd Hinv].
  destruct (fetch_upload_disk w u) as [Hcwd' Hdisk].
  split; [congruence |].
  assert (Hplace : stored_at w (multipart_name (file_name (file u)))
                   = stored_at w0 (multipart_name (file_name (file u)))).
  { unfold stored_at, input_dir. by rewrite Hcwd. }
  destruct Hdisk as [-> | ->]; [done |]. rewrite Hplace.
  intros c [Hv Hsome]%elem_of_children.
  destruct (decide (stored_at w0 (multipart_name (file_name (file u))) = input_dir w0 ++ [c]))
    as [Heq | Hne].
  - exists u. split_and!; [done.. |]. rewrite <- Heq. apply lookup_insert_eq.
  - rewrite lookup_insert_ne in Hsome by done.
    destruct (Hinv c) as (u' & Hu' & Hpath & Hbytes); [by apply elem_of_children |].
    exists u'. split_and!; [done.. |]. by rewrite lookup_insert_ne.
Qed.

Lemma only_from_uploads us w0 batch w :
  (∀ u, u ∈ batch → u ∈ us) → only_from us w0 w →
  only_from us w0 (foldl fetch_upload w batch).
Proof.
  revert w. induction batch as [|u batch IH]; intros w Hsub Hinv; simpl; [done |].
  apply IH.
  - intros u' Hu'. apply Hsub. by right.
  - apply only_from_upload; [| done]. apply Hsub. by left.
Qed.

Lemma only_from_cleared us w r :
  (POST_clear_input w).1 = inr r → succeeded r = true →
  only_from us w (fetch_clear_input w).
Proof.
  intros Hclear Hok. unfold fetch_clear_input.
  destruct (POST_clear_input w) as [res w1] eqn:Hrun. simpl in Hclear. subst res.
  destruct (clear_input_success _ _ _ Hrun Hok) as (Hcwd & _ & Hnone & _).
  split; [done |]. simpl. rewrite Hnone. by intros c' ?%elem_of_nil.
Qed.

(** C8 (as the code has it): the runs share the one input directory, and
    what separates a run from the one before it is that [uploadFiles] clears
    the directory first.  When the request of that call reaches the server
    and is handled with success, every entry the input directory lists after
    the run, however far the run got, is at the path of the name the server
    received for a file of this run's selection and holds the bytes of such
    a file; nothing of an earlier run is left to be read. *)
Theorem rerun_keeps_only_its_files net st w r c :
  uploadedFiles st ≠ [] →
  isUploading st = false →
  hd Answered net ≠ LostRequest →
  (POST_clear_input w).1 = inr r →
  succeeded r = true →
  c ∈ children (disk (uploadFiles net st w).2) (input_dir w) →
  ∃ fileData, fileData ∈ uploadedFiles st
    ∧ stored_at w (multipart_name (file_name (file fileData))) = input_dir w ++ [c]
    ∧ disk (uploadFiles net st w).2 !! (input_dir w ++ [c])
      = Some (Reg (file_bytes (file fileData))).
Proof.
  intros Hsel Hidle Hsent Hclear Hok.
  destruct (uploadFiles_run net st w Hsel Hidle) as [k ->].
  replace (reaches (hd Answered net)) with true by by destruct (hd Answered net).
  assert (Hinv : only_from (uploadedFiles st) w
                   (foldl fetch_upload (fetch_clear_input w) (take k (uploadedFiles st)))).
  { apply only_from_uploads; [| by eapply only_from_cleared].
    intros u Hu. by apply (subseteq_take k (uploadedFiles st)). }
  destruct Hinv as [_ Hinv]. apply Hinv.
Qed.

Lemma rerun_keeps_only_its_files_witness :
  ∃ fileData, fileData ∈ uploadedFiles (run_of [scan_v2])
    ∧ stored_at w2 (multipart_name (file_name (file fileData))) = input_dir w2 ++ ["scan.pdf"]
    ∧ disk (uploadFiles [Answered; Answered] (run_of [scan_v2]) w2).2
        !! (input_dir w2 ++ ["scan.pdf"])
      = Some (Reg (file_bytes (file fileData))).
Proof.
  apply (rerun_keeps_only_its_files [Answered; Answered] (run_of [scan_v2]) w2
           [("success", JBool true);
            ("message", JString "Input directory cleared successfully");
            ("deletedFiles", JNumber 2)] "scan.pdf").
  - discriminate.
  - reflexivity.
  - discriminate.
  - vm_compute. reflexivity.
  - reflexivity.
  - vm_compute. apply list_elem_of_here.
Defined.

(** C8 (as stated) fails: two runs, one after the other on the same server,
    each select a file named ["scan.pdf"].  Every request of both is
    answered.  Both write the same place of the store, and the second run
    replaces what the first one stored there. *)
Lemma runs_share_the_store_counterexample :
  written_paths (run_of [scan_v1]) w0 = [["srv"; "app"; "input"; "scan.pdf"]]
  ∧ written_paths (run_of [scan_v2]) (uploadFiles [] (run_of [scan_v1]) w0).2
    = [["srv"; "app"; "input"; "scan.pdf"]]
  ∧ disk (uploadFiles [] (run_of [scan_v1]) w0).2 !! ["srv"; "app"; "input"; "scan.pdf"]
    = Some (Reg [x01])
  ∧ disk (uploadFiles [] (run_of [scan_v2]) (uploadFiles [] (run_of [scan_v1]) w0).2).2
      !! ["srv"; "app"; "input"; "scan.pdf"]
    = Some (Reg [x02]).
Proof. vm_compute. done. Qed.

End UploadRuns.

(** * Properties of the orchestrator *)

Section StoreFacts.
Import Orchestrator.

Implicit Types (store : Store) (runId name stage : string) (names : list string).

Lemma exists_true store runId name :
  exists_ store runId name = true ↔ is_Some (store !! (runId, name)).
Proof.
  unfold exists_. destruct (store !! (runId, name)); split; done.
Qed.

Lemma exists_false store runId name :
  exists_ store runId name = false ↔ store !! (runId, name) = None.
Proof. unfold exists_. by destruct (store !! (runId, name)). Qed.

Lemma exists_mono store store' runId name :
  store ⊆ store' → exists_ store runId name = true → exists_ store' runId name = true.
Proof.
  rewrite !exists_true. intros Hsub [a Ha]. exists a.
  by apply (lookup_weaken _ _ _ _ Ha Hsub).
Qed.

Lemma all_present_spec store runId names :
  all_present store runId names = true ↔ ∀ n, n ∈ names → exists_ store runId n = true.
Proof.
  unfold all_present. rewrite forallb_forall.
  split; intros H n Hn; apply H; by apply list_elem_of_In.
Qed.


(** A successful [put] adds the one key and changes nothing else; a failed
    one is a conflict. *)
Lemma put_ok store runId name p stage ref store' :
  put store runId name p stage = inr (ref, store') →
  store !! (runId, name) = None
  ∧ store' = <[(runId, name) :=
                 {| art_payload := p; art_stage := stage; art_size := length p |}]> store.
Proof.
  unfold put. destruct (exists_ store runId name) eqn:He; [done |].
  intros [= <- <-]. by apply exists_false in He.
Qed.

Lemma put_conflict store runId name p stage e :
  put store runId name p stage = inl e →
  e = ArtifactConflict ∧ exists_ store runId name = true.
Proof.
  unfold put. destruct (exists_ store runId name) eqn:He; [| done].
  by intros [= <-].
Qed.

(** The second of two [put]s under one (runId, name) fails with
    [ArtifactConflict], whatever the payloads, and the store keeps the
    first. *)
Lemma put_put store runId name p1 p2 s1 s2 ref store' :
  put store runId name p1 s1 = inr (ref, store') →
  put store' runId name p2 s2 = inl ArtifactConflict
  ∧ get store' runId name = inr p1.
Proof.
  intros [_ ->]%put_ok. unfold put, get, exists_.
  by rewrite lookup_insert_eq.
Qed.

(** What [put_all] does to the store: it only adds, and only under names
    of the list. *)
Lemma put_all_store store runId stage outs names res store' :
  put_all store runId stage outs names = (res, store') →
  store ⊆ store'
  ∧ ∀ key, store' !! key = store !! key ∨ ∃ n, n ∈ names ∧ key = (runId, n).
Proof.
  revert store res store'. induction names as [|n names IH]; intros store res store'; simpl.
  - intros [= <- <-]. split; [done | by left].
  - destruct (put store runId n (outs n) stage) as [e | [ref store1]] eqn:Hput.
    + intros [= <- <-]. split; [done | by left].
    + apply put_ok in Hput as [Hfree ->].
      destruct (put_all _ runId stage outs names) as [res1 store2] eqn:Hrest.
      apply IH in Hrest as [Hsub Hkeys].
      intros Heq.
      assert (store' = store2) as -> by (destruct res1; by injection Heq).
      split.
      * etrans; [| exact Hsub]. by apply insert_subseteq.
      * intros key. destruct (Hkeys key) as [Hsame | (n' & Hn' & ->)].
        -- destruct (decide (key = (runId, n))) as [-> | Hne].
           ++ right. exists n. split; [by left | done].
           ++ left. by rewrite Hsame, lookup_insert_ne.
        -- right. exists n'. split; [by right | done].
Qed.

(** When [put_all] returns references, every name of the list is in the
    store. *)
Lemma put_all_written store runId stage outs names refs store' :
  put_all store runId stage outs names = (inr refs, store') →
  all_present store' runId names = true.
Proof.
  revert store refs store'. induction names as [|n names IH]; intros store refs store'; simpl.
  - done.
  - destruct (put store runId n (outs n) stage) as [e | [ref store1]] eqn:Hput; [done |].
    destruct (put_all store1 runId stage outs names) as [[e | refs1] store2] eqn:Hrest; [done |].
    intros [= <- <-]. apply andb_true_iff. split.
    + apply put_ok in Hput as [_ ->].
      apply put_all_store in Hrest as [Hsub _].
      eapply exists_mono; [exact Hsub |]. apply exists_true. by rewrite lookup_insert_eq.
    + by apply IH in Hrest.
Qed.


(** A failed [put_all] whose first name is already stored has written
    nothing. *)
Lemma put_all_first_taken store runId stage outs n names :
  exists_ store runId n = true →
  put_all store runId stage outs (n :: names) = (inl ArtifactConflict, store).
Proof. intros He. simpl. unfold put. by rewrite He. Qed.

End StoreFacts.

Section RunnerFacts.
Import Orchestrator.

Implicit Types (def : StageDef) (store : Store) (runId : string) (call : nat → CollabResult).
Implicit Types (a k retries : nat).


Lemma classify_not_returned (r : CollabResult) e :
  classify r = Some e → ∀ outs, r ≠ Returned outs.
Proof. by destruct r. Qed.








(** The outcome of the Stage Runner is never [Skipped]. *)
Lemma run_status def store runId :
  status (run def store runId).1 = Succeeded ∨ status (run def store runId).1 = Failed.
Proof.
  unfold run. destruct (negb _); [by right |].
  destruct (attempt_loop _ _ _) as [n [e | outs]]; [by right |].
  destruct (put_all _ _ _ _ _) as [[e | refs] store']; [by right | by left].
Qed.

(** The Stage Runner only adds to the store, and only under the declared
    outputs of the stage; after [Succeeded] all of these are there. *)
Lemma run_store def store runId :
  store ⊆ (run def store runId).2
  ∧ (∀ key, (run def store runId).2 !! key = store !! key
            ∨ ∃ n, n ∈ outputs def ∧ key = (runId, n))
  ∧ (status (run def store runId).1 = Succeeded →
     all_present (run def store runId).2 runId (outputs def) = true).
Proof.
  unfold run. destruct (negb _); [by split_and!; [| left |] |].
  destruct (attempt_loop _ _ _) as [n [e | outs]]; [by split_and!; [| left |] |].
  destruct (put_all _ _ _ _ _) as [[e | refs] store'] eqn:Hput; simpl.
  - by split_and!; [| left |].
  - pose proof (put_all_written _ _ _ _ _ _ _ Hput) as Hall.
    apply put_all_store in Hput as [Hsub Hkeys]. by split_and!.
Qed.

(** How a stage execution ends: as [Succeeded] with every declared output
    in the store, or as [Failed] with the store as it was. *)
Lemma run_cases def store runId :
  (status (run def store runId).1 = Succeeded
   ∧ all_present (run def store runId).2 runId (outputs def) = true)
  ∨ (status (run def store runId).1 = Failed ∧ (run def store runId).2 = store).
Proof.
  unfold run. destruct (negb _); [by right |].
  destruct (attempt_loop _ _ _) as [n [e | outs]]; [by right |].
  destruct (put_all _ _ _ _ _) as [[e | refs] store'] eqn:Hput; [by right |].
  left. split; [done |]. by apply put_all_written in Hput.
Qed.

End RunnerFacts.

Section RetryPolicy.
Import Orchestrator PipelineExamples.

Implicit Types (def : StageDef) (store : Store) (runId : string).
Implicit Types (j k : nat).




End RetryPolicy.

Section AllOrNone.
Import Orchestrator PipelineExamples.

Implicit Types (def : StageDef) (store : Store) (runId : string).

(** C4: a stage execution never leaves a part of its declared outputs
    behind.  Whatever the store it starts with, it ends either as
    [Succeeded] with every declared output in the store, or as [Failed] (a
    missing input, a collaborator error, a timeout, a failed output write)
    with the store exactly as it was.  So an execution that starts with all
    or with none of its declared outputs in the store ends with all or with
    none of them there. *)
Theorem runner_all_or_none def store runId :
  ((status (outcome def store runId) = Succeeded
    ∧ all_present (store_after def store runId) runId (outputs def) = true)
   ∨ (status (outcome def store runId) = Failed
      ∧ store_after def store runId = store))
  ∧ (all_present store runId (outputs def) = true
     ∨ none_present store runId (outputs def) = true →
     all_present (store_after def store runId) runId (outputs def) = true
     ∨ none_present (store_after def store runId) runId (outputs def) = true).
Proof.
  unfold outcome, store_after.
  destruct (run_cases def store runId) as [[Hs Hall] | [Hs Hsame]].
  - split; [by left | by left].
  - split; [by right | by rewrite Hsame].
Qed.

End AllOrNone.

Section RunFacts.
Import Orchestrator.

Implicit Types (def : StageDef) (defs : list StageDef) (store : Store) (runId : string).
Implicit Types (os : list StageOutcome) (ps : list nat) (pos j k : nat).

Lemma run_stages_cons runId pos def defs store :
  run_stages runId pos (def :: defs) store =
  match status (run def store runId).1 with
  | Succeeded =>
      let '(os, st, store'', ps) := run_stages runId (S pos) defs (run def store runId).2 in
      ((run def store runId).1 :: os, st, store'', pos :: ps)
  | _ => ((run def store runId).1 :: map skipped defs, RunFailed,
          (run def store runId).2, [pos])
  end.
Proof. simpl. by destruct (run def store runId). Qed.

(** A run in which every recorded outcome is [Succeeded] ends as
    [RunSucceeded] with the outputs of all its stages in the store. *)
Lemma run_stages_succeeded runId pos defs store os st store' ps :
  run_stages runId pos defs store = (os, st, store', ps) →
  Forall (λ o, status o = Succeeded) os →
  st = RunSucceeded
  ∧ store ⊆ store'
  ∧ ∀ def n, def ∈ defs → n ∈ outputs def → exists_ store' runId n = true.
Proof.
  revert pos store os st store' ps.
  induction defs as [|def defs IH]; intros pos store os st store' ps.
  - simpl. intros [= <- <- <- <-] _. split_and!; [done.. |].
    intros def n Hdef. by apply elem_of_nil in Hdef.
  - rewrite run_stages_cons.
    destruct (run_store def store runId) as (Hsub & _ & Hout).
    destruct (status (run def store runId).1) eqn:Hst.
    + destruct (run_stages runId (S pos) defs (run def store runId).2)
        as [[[os1 st1] store2] ps1] eqn:Hrest.
      intros [= <- <- <- <-] Hall. apply Forall_cons in Hall as [_ Hall].
      destruct (IH _ _ _ _ _ _ Hrest Hall) as (-> & Hsub' & Hlater).
      split_and!; [done | by etrans |].
      intros def' n [-> | Hdef']%elem_of_cons Hn.
      * eapply exists_mono; [exact Hsub' |].
        by apply (proj1 (all_present_spec _ _ _) (Hout eq_refl)).
      * by apply (Hlater def').
    + intros [= <- <- <- <-] Hall. apply Forall_cons in Hall as [Hbad _]. congruence.
    + intros [= <- <- <- <-] Hall. apply Forall_cons in Hall as [Hbad _]. congruence.
Qed.

(** A run with a [Failed] record at position [k]: it ends as [RunFailed],
    the Stage Runner was started for the stages up to [k] and for no other,
    the stages behind [k] are recorded as skipped, and the store differs
    from the initial one at most under outputs of the stages up to [k]. *)
Lemma run_stages_failed runId pos defs store os st store' ps k o :
  run_stages runId pos defs store = (os, st, store', ps) →
  os !! k = Some o →
  status o = Failed →
  st = RunFailed
  ∧ ps = seq pos (S k)
  ∧ (∀ j def, (k < j)%nat → defs !! j = Some def → os !! j = Some (skipped def))
  ∧ (∀ key, store' !! key = store !! key
            ∨ ∃ def n, def ∈ take (S k) defs ∧ n ∈ outputs def ∧ key = (runId, n)).
Proof.
  revert pos store os st store' ps k.
  induction defs as [|def defs IH]; intros pos store os st store' ps k.
  - simpl. by intros [= <- <- <- <-] ?.
  - rewrite run_stages_cons.
    destruct (run_store def store runId) as (_ & Hkeys & _).
    assert (Hhere : ∀ key, (run def store runId).2 !! key = store !! key
                           ∨ ∃ def' n, def' ∈ take 1 (def :: defs) ∧ n ∈ outputs def'
                                       ∧ key = (runId, n)).
    { intros key. destruct (Hkeys key) as [? | (n & ? & ?)]; [by left |].
      right. exists def, n. split_and!; [by left | done..]. }
    destruct (status (run def store runId).1) eqn:Hst.
    + destruct (run_stages runId (S pos) defs (run def store runId).2)
        as [[[os1 st1] store2] ps1] eqn:Hrest.
      intros [= <- <- <- <-] Hk Hfailed.
      destruct k as [|k]; [simpl in Hk; congruence |]. simpl in Hk.
      destruct (IH _ _ _ _ _ _ _ Hrest Hk Hfailed) as (-> & -> & Hskip & Hstore).
      split_and!; [done.. | |].
      * intros [|j] def' Hj Hdef'; [lia |]. simpl in *. apply Hskip; [lia | done].
      * intros key. destruct (Hstore key) as [Hsame | (def' & n & Hdef' & Hn & ->)].
        -- destruct (Hkeys key) as [? | (n & ? & ?)]; [left; congruence |].
           right. exists def, n. split_and!; [by left | done..].
        -- right. exists def', n. split_and!; [by right | done..].
    + intros [= <- <- <- <-] Hk Hfailed.
      destruct k as [|k].
      * split_and!; [done.. | | done].
        intros [|j] def' Hj Hdef'; [lia |]. simpl in *.
        by rewrite list_lookup_fmap, Hdef'.
      * simpl in Hk. rewrite list_lookup_fmap in Hk.
        destruct (defs !! k); simpl in Hk; [| done]. injection Hk as <-. done.
    + destruct (run_status def store runId); congruence.
Qed.

Lemma list_nil store runId name : list_ store runId = [] → store !! (runId, name) = None.
Proof.
  intros Hnil. destruct (store !! (runId, name)) as [a|] eqn:Ha; [| done].
  assert (Hin : {| ref_run := runId; ref_name := name |} ∈ list_ store runId).
  { unfold list_. apply list_elem_of_omap. exists ((runId, name), a). split.
    - by apply elem_of_map_to_list.
    - simpl. by rewrite String.eqb_refl. }
  rewrite Hnil in Hin. by apply elem_of_nil in Hin.
Qed.

(** An accepted run: the identifier had no artifact, the documents were
    stored as "raw-input-set", and the stages ran from there. *)
Lemma execute_accepted store runId defs docs res :
  execute store runId defs docs = inr res →
  (∀ name, store !! (runId, name) = None)
  ∧ run_stages runId 0 defs
      (<[(runId, raw_input_set) :=
           {| art_payload := docs; art_stage := "input"; art_size := length docs |}]> store)
    = (records (report res), overall (report res), final_store res, started res).
Proof.
  unfold execute. destruct (list_ store runId) eqn:Hlist; [| done].
  unfold put, exists_. rewrite (list_nil _ _ raw_input_set Hlist).
  destruct (run_stages _ _ _ _) as [[[os st] store'] ps].
  intros [= <-]. split; [| done]. intros name. by apply list_nil.
Qed.

Lemma elem_of_outputs defs def n :
  def ∈ defs → n ∈ outputs def → n ∈ concat (map outputs defs).
Proof.
  intros Hdef Hn. apply list_elem_of_In, in_concat. exists (outputs def).
  split; [| by apply list_elem_of_In]. apply in_map. by apply list_elem_of_In.
Qed.

End RunFacts.

Section PipelineRuns.
Import Orchestrator PipelineExamples.

Implicit Types (def : StageDef) (defs : list StageDef) (store : Store) (runId : string).
Implicit Types (j k : nat).

(** C2: in a run whose stages declare distinct artifact names, once a
    stage is recorded as [Failed] the run is [RunFailed]; the Stage Runner
    was started for the stages up to the failing one and for none behind it;
    every stage behind it has, at its position of the report, a record under
    its name with status [Skipped] and no attempt; and none of the outputs
    those stages declare is in the store. *)
Theorem failed_stage_stops_run store runId defs docs res k o :
  execute store runId defs docs = inr res →
  distinct_outputs defs = true →
  records (report res) !! k = Some o →
  status o = Failed →
  overall (report res) = RunFailed
  ∧ started res = seq 0 (S k)
  ∧ (∀ j def, (k < j)%nat → defs !! j = Some def →
       (∃ o', records (report res) !! j = Some o'
              ∧ out_stage o' = stage_name def
              ∧ status o' = Skipped
              ∧ attempts o' = 0%nat)
       ∧ (j ∉ started res)
       ∧ (∀ name, name ∈ outputs def → exists_ (final_store res) runId name = false)).
Proof.
  intros Hexec Hdistinct Hk Hfailed.
  apply execute_accepted in Hexec as [Hfresh Hrun].
  destruct (run_stages_failed _ _ _ _ _ _ _ _ _ _ Hrun Hk Hfailed)
    as (Hst & Hps & Hskip & Hstore).
  split_and!; [done.. |].
  intros j def Hj Hdef. split_and!.
  - exists (skipped def). split_and!; [by apply Hskip | done..].
  - rewrite Hps. intros Hin%elem_of_seq. lia.
  - intros name Hname. apply exists_false.
    unfold distinct_outputs in Hdistinct.
    apply bool_decide_eq_true, NoDup_cons in Hdistinct as [Hraw Hnd].
    rewrite <- (take_drop (S k) defs), map_app, concat_app in Hnd.
    apply NoDup_app in Hnd as (_ & Hdisjoint & _).
    assert (Hbehind : name ∈ concat (map outputs (drop (S k) defs))).
    { apply (elem_of_outputs _ def); [| done].
      apply list_elem_of_lookup. exists (j - S k)%nat.
      rewrite lookup_drop. by replace (S k + (j - S k))%nat with j by lia. }
    destruct (Hstore (runId, name)) as [-> | (def' & n & Hdef' & Hn & [= ->])].
    + rewrite lookup_insert_ne; [done |]. intros [= <-]. apply Hraw.
      by apply (elem_of_outputs _ def); [eapply list_elem_of_lookup_2 |].
    + exfalso. apply (Hdisjoint n); [| done]. by apply (elem_of_outputs _ def').
Qed.

(** The fixed pipeline with a synthesis collaborator that reports a
    malformed input: the second record is [Failed]. *)
Lemma failed_stage_stops_run_witness :
  overall (report bad_run) = RunFailed
  ∧ started bad_run = seq 0 2
  ∧ (∀ j def, (1 < j)%nat → bad_pipeline !! j = Some def →
       (∃ o', records (report bad_run) !! j = Some o'
              ∧ out_stage o' = stage_name def
              ∧ status o' = Skipped
              ∧ attempts o' = 0%nat)
       ∧ (j ∉ started bad_run)
       ∧ (∀ name, name ∈ outputs def
                  → exists_ (final_store bad_run) "run-1" name = false)).
Proof.
  apply (failed_stage_stops_run ∅ "run-1" bad_pipeline documents bad_run 1
           {| out_stage := "synthesis"; status := Failed; attempts := 1;
              error := Some (Permanent, "empty input"); output_refs := [] |}).
  - vm_compute. reflexivity.
  - vm_compute. reflexivity.
  - vm_compute. reflexivity.
  - reflexivity.
Defined.

(** C3: a run of the fixed pipeline in which every recorded stage outcome
    is [Succeeded] ends with "final-document" in the store and with
    [RunSucceeded] as the overall status of its report. *)
Theorem all_succeeded_gives_final_document
    (extraction synthesis markup compilation : Collaborator) (budget : nat → nat * nat)
    store runId docs res :
  execute store runId (pipeline extraction synthesis markup compilation budget) docs
    = inr res →
  Forall (λ o, status o = Succeeded) (records (report res)) →
  exists_ (final_store res) runId final_document = true
  ∧ overall (report res) = RunSucceeded.
Proof.
  intros Hexec Hall.
  apply execute_accepted in Hexec as [_ Hrun].
  destruct (run_stages_succeeded _ _ _ _ _ _ _ _ Hrun Hall) as (Hst & _ & Hout).
  split; [| done].
  apply (Hout (stage "compilation" "markup-source" final_document compilation (budget 3))).
  - unfold pipeline. set_solver.
  - simpl. set_solver.
Qed.

Lemma all_succeeded_gives_final_document_witness :
  exists_ (final_store good_run) "run-1" final_document = true
  ∧ overall (report good_run) = RunSucceeded.
Proof.
  apply (all_succeeded_gives_final_document echo (rate_limited 2) echo echo budgets
           ∅ "run-1" documents good_run).
  - vm_compute. reflexivity.
  - vm_compute. repeat constructor.
Defined.

End PipelineRuns.

(** * Further properties of the upload route *)

Section UploadEdges.
Import NodeFs Routes Examples.

Implicit Types (w : World) (f : File) (data : FormData) (request : NextRequest).
Implicit Types (p dir : path) (c : string).

Lemma writeFile_world p buffer w :
  (writeFile p buffer w).2 = w
  ∨ (writeFile p buffer w = (inr tt, set_disk w (<[p := Reg buffer]> (disk w)))).
Proof.
  destruct (writeFile p buffer w) as [[e | []] w'] eqn:Hw; simpl.
  - left. by apply writeFile_failed in Hw.
  - right. by apply writeFile_ok in Hw as (-> & _).
Qed.

Lemma input_dir_join w : input_dir w = cwd w ++ ["input"].
Proof. reflexivity. Qed.

Lemma entry_valid (d : gmap path node) p n : entry d p = Some n → usable p = true.
Proof. unfold entry. by destruct (usable p). Qed.

(** The place of a file with a plain name is the entry of that name in the
    input directory. *)
Lemma stored_at_plain w c : valid_name c = true → stored_at w c = input_dir w ++ [c].
Proof. intros Hc. unfold stored_at. by apply path_join_child. Qed.

(** X1: the upload handler never lets an exception escape.  Whatever the
    request and the state of the server, it answers with one of three
    responses: "No file received", "Error uploading file", or the success
    response that carries the name of the [File] found under 'file'. *)
Theorem upload_always_answers request w :
  ∃ r, (POST_upload request w).1 = inr r
       ∧ (r = no_file_received
          ∨ r = upload_failed
          ∨ ∃ data f, body request = Some data
                      ∧ FormData_get data "file" = Some (FFile f)
                      ∧ r = uploaded_ok (file_name f)).
Proof.
  rewrite POST_upload_cases.
  destruct (body request) as [data|]; [| eexists; split; [reflexivity | by right; left]].
  destruct (FormData_get data "file") as [[s | f] |] eqn:Hget.
  - destruct (String.eqb s ""); eexists; (split; [reflexivity |]); [by left | by right; left].
  - rewrite POST_upload_file.
    destruct (writeFile _ _ w) as [[e | []] w']; eexists; (split; [reflexivity |]).
    + by right; left.
    + right; right. by exists data, f.
  - eexists. split; [reflexivity | by left].
Qed.

(** X2: an upload that is not answered with success has written nothing.
    After "No file received" the server is as it was; after "Error uploading
    file" it differs by the one line on the console. *)
Theorem upload_failure_changes_nothing request w r w' :
  POST_upload request w = (inr r, w') →
  succeeded r = false →
  (r = no_file_received ∧ w' = w)
  ∨ (r = upload_failed ∧ w' = logged w "Error uploading file:").
Proof.
  rewrite POST_upload_cases.
  destruct (body request) as [data|]; [| intros [= <- <-] _; by right].
  destruct (FormData_get data "file") as [[s | f] |] eqn:Hget.
  - destruct (String.eqb s ""); intros [= <- <-] _; [by left | by right].
  - rewrite POST_upload_file.
    destruct (writeFile _ _ w) as [[e | []] w1] eqn:Hw; intros [= <- <-]; [| done].
    intros _. right. by apply writeFile_failed in Hw as ->.
  - intros [= <- <-] _. by left.
Qed.

Lemma upload_failure_changes_nothing_witness :
  (upload_failed = no_file_received
   ∧ logged w0 "Error uploading file:" = w0)
  ∨ (upload_failed = upload_failed
     ∧ logged w0 "Error uploading file:" = logged w0 "Error uploading file:").
Proof.
  apply (upload_failure_changes_nothing (upload_request (pdf "" [x01])) w0).
  - vm_compute. reflexivity.
  - reflexivity.
Defined.

(** X3: an upload leaves every place of the disk other than the one it
    stores the file at as it was, and it does not change where the server
    runs. *)
Theorem upload_touches_one_path f w p :
  p ≠ stored_at w (file_name f) →
  disk (POST_upload (upload_request f) w).2 !! p = disk w !! p
  ∧ cwd (POST_upload (upload_request f) w).2 = cwd w.
Proof.
  intros Hp. rewrite POST_upload_file.
  destruct (writeFile_world (stored_at w (file_name f)) (file_bytes f) w) as [Hsame | ->].
  - destruct (writeFile _ _ w) as [[e | []] w']; simpl in *; by subst w'.
  - simpl. by rewrite lookup_insert_ne.
Qed.

Lemma upload_touches_one_path_witness :
  disk (POST_upload (upload_request scan_v2) w2).2 !! ["srv"; "app"; "input"; "notes.pdf"]
    = disk w2 !! ["srv"; "app"; "input"; "notes.pdf"]
  ∧ cwd (POST_upload (upload_request scan_v2) w2).2 = cwd w2.
Proof.
  apply (upload_touches_one_path scan_v2 w2 ["srv"; "app"; "input"; "notes.pdf"]).
  vm_compute. intros [=].
Defined.

(** X4: a file whose name the file system accepts as an entry of the input
    directory (an entry name: not empty, no '/', not "." or "..", at most
    [NAME_MAX] bytes, and the path with it shorter than [PATH_MAX]) is
    stored whenever the input directory exists and holds no directory of
    that name: the answer is the success response with the name, and the
    disk then holds the bytes at the entry of that name in the input
    directory, whatever was there before. *)
Theorem upload_plain_name_succeeds f w :
  usable (input_dir w ++ [file_name f]) = true →
  entry (disk w) (input_dir w) = Some Dir →
  entry (disk w) (input_dir w ++ [file_name f]) ≠ Some Dir →
  POST_upload (upload_request f) w =
  (inr (uploaded_ok (file_name f)),
   set_disk w (<[input_dir w ++ [file_name f] := Reg (file_bytes f)]> (disk w))).
Proof.
  intros Hname Hdir Hfree.
  rewrite POST_upload_file, (stored_at_plain _ _ (usable_last _ _ Hname)), writeFile_run;
    [done.. | | done].
  unfold parent. by rewrite removelast_last.
Qed.

Lemma upload_plain_name_succeeds_witness :
  POST_upload (upload_request notes) w0 =
  (inr (uploaded_ok (file_name notes)),
   set_disk w0 (<[input_dir w0 ++ [file_name notes] := Reg (file_bytes notes)]> (disk w0))).
Proof.
  apply (upload_plain_name_succeeds notes w0).
  - reflexivity.
  - reflexivity.
  - vm_compute. intros [=].
Defined.

(** X5: the handler does not create the input directory.  Where it is
    missing (or is a regular file), the upload of a file with a plain name
    is answered with "Error uploading file" and the disk stays as it was. *)
Theorem upload_needs_input_directory f w :
  valid_name (file_name f) = true →
  entry (disk w) (input_dir w) ≠ Some Dir →
  POST_upload (upload_request f) w = (inr upload_failed, logged w "Error uploading file:").
Proof.
  intros Hname Hdir.
  rewrite POST_upload_file, (stored_at_plain _ _ Hname).
  unfold writeFile, parent. rewrite removelast_last.
  destruct (usable (input_dir w ++ [file_name f])); simpl; [| done].
  destruct (entry (disk w) (input_dir w)) as [[content |] |]; done.
Qed.

Lemma upload_needs_input_directory_witness :
  POST_upload (upload_request notes) (set_disk w0 ∅)
  = (inr upload_failed, logged (set_disk w0 ∅) "Error uploading file:").
Proof.
  apply (upload_needs_input_directory notes (set_disk w0 ∅)).
  - reflexivity.
  - vm_compute. intros [=].
Defined.

End UploadEdges.

Section UploadNames.
Import NodeFs Routes Examples.

Implicit Types (w : World) (f : File) (data : FormData) (c : string).

Lemma plain_chars_of_valid c :
  valid_name c = true → forallb plain_char (String.list_ascii_of_string c) = true.
Proof. unfold valid_name. by intros [_ H]%andb_true_iff. Qed.

Lemma valid_name_not_empty c : valid_name c = true → c ≠ "".
Proof. by intros Hc ->. Qed.

(** Where [path.join] puts a name that climbs out of the input directory
    by one level. *)
Lemma stored_at_parent w c : valid_name c = true → stored_at w ("../" +:+ c) = cwd w ++ [c].
Proof.
  intros Hc. pose proof (plain_chars_of_valid _ Hc) as Hplain.
  unfold stored_at, path_join at 1. simpl. change ("" +:+ c) with c.
  rewrite (split_slash_plain _ Hplain). simpl.
  assert (Hend : match c with
                 | "" => true
                 | String _ _ => ends_with_slash c
                 end = false).
  { destruct c; [done | by apply ends_with_slash_plain]. }
  rewrite Hend. unfold push_segment at 2. simpl.
  rewrite input_dir_join, removelast_last.
  unfold push_segment, valid_name in *.
  apply andb_true_iff in Hc as [[[H1 H2]%andb_true_iff H3]%andb_true_iff _].
  apply negb_true_iff in H1, H2, H3. by rewrite H1, H2, H3.
Qed.

(** X6: the handler does not confine the write to the input directory.  A
    [File] whose name is "../" followed by a name that the file system
    accepts as an entry of the directory the server runs in is stored, under
    that name, in that directory, whenever it holds no directory of the
    name; the input directory need not even exist. *)
Theorem upload_can_leave_input_directory f c w :
  usable (cwd w ++ [c]) = true →
  file_name f = "../" +:+ c →
  entry (disk w) (cwd w) = Some Dir →
  entry (disk w) (cwd w ++ [c]) ≠ Some Dir →
  POST_upload (upload_request f) w =
  (inr (uploaded_ok (file_name f)),
   set_disk w (<[cwd w ++ [c] := Reg (file_bytes f)]> (disk w))).
Proof.
  intros Hc Hname Hcwd Hfree.
  rewrite POST_upload_file, Hname, (stored_at_parent _ _ (usable_last _ _ Hc)), writeFile_run;
    [done.. | | done].
  unfold parent. by rewrite removelast_last.
Qed.

Lemma upload_can_leave_input_directory_witness :
  POST_upload (upload_request (pdf "../server.js" [x05])) (set_disk w0 (delete ["srv"; "app"; "input"] (disk w0))) =
  (inr (uploaded_ok "../server.js"),
   set_disk (set_disk w0 (delete ["srv"; "app"; "input"] (disk w0)))
     (<[["srv"; "app"] ++ ["server.js"] := Reg [x05]]>
        (disk (set_disk w0 (delete ["srv"; "app"; "input"] (disk w0)))))).
Proof.
  apply (upload_can_leave_input_directory (pdf "../server.js" [x05]) "server.js"
           (set_disk w0 (delete ["srv"; "app"; "input"] (disk w0)))).
  - reflexivity.
  - reflexivity.
  - vm_compute. reflexivity.
  - vm_compute. intros [=].
Defined.

(** X7: a 'file' field that holds a string is never stored.  The empty
    string is answered like a missing field, with "No file received" and no
    trace; any other string has no [arrayBuffer], and the answer is "Error
    uploading file" with the line on the console. *)
Theorem upload_string_field_not_stored data s w :
  FormData_get data "file" = Some (FString s) →
  POST_upload {| body := Some data |} w =
  if String.eqb s "" then (inr no_file_received, w)
  else (inr upload_failed, logged w "Error uploading file:").
Proof. intros Hget. rewrite POST_upload_cases. simpl. by rewrite Hget. Qed.

Lemma upload_string_field_not_stored_witness :
  POST_upload {| body := Some [("patient", FString "A. B."); ("file", FString "scan.pdf")] |} w0 =
  if String.eqb "scan.pdf" "" then (inr no_file_received, w0)
  else (inr upload_failed, logged w0 "Error uploading file:").
Proof.
  apply (upload_string_field_not_stored
           [("patient", FString "A. B."); ("file", FString "scan.pdf")] "scan.pdf" w0).
  reflexivity.
Defined.

End UploadNames.

(** * Further properties of the clear-input route *)

Section ClearEdges.
Import NodeFs Routes Examples.

Implicit Types (w : World) (p dir : path) (d : gmap path node) (c : string).
Implicit Types (cs : list string).

Lemma entry_delete_ne d p q : p ≠ q → entry (delete p d) q = entry d q.
Proof.
  intros Hne. unfold entry. destruct (usable q); [| done].
  destruct q; [done |]. by rewrite lookup_delete_ne.
Qed.

Lemma entry_child d dir c :
  usable (dir ++ [c]) = true → entry d (dir ++ [c]) = d !! (dir ++ [c]).
Proof. intros Hc. unfold entry. rewrite Hc. by destruct dir. Qed.

Lemma app_singleton_inj dir c c' : dir ++ [c] = dir ++ [c'] → c = c'.
Proof. by intros [= ->]%app_inv_head. Qed.

(** The world after a [Promise.all] over [unlink] calls on distinct entries,
    whether it was fulfilled or rejected: the entries that were regular
    files are gone, everything else is as it was. *)
Lemma unlink_all_world dir cs w :
  NoDup cs →
  cwd (Promise_all (map (λ c, unlink (dir ++ [c])) cs) w).2 = cwd w
  ∧ console (Promise_all (map (λ c, unlink (dir ++ [c])) cs) w).2 = console w
  ∧ (∀ c b, c ∈ cs → entry (disk w) (dir ++ [c]) = Some (Reg b) →
       disk (Promise_all (map (λ c, unlink (dir ++ [c])) cs) w).2 !! (dir ++ [c]) = None)
  ∧ (∀ p, (∀ c b, c ∈ cs → p = dir ++ [c] → entry (disk w) p ≠ Some (Reg b)) →
       disk (Promise_all (map (λ c, unlink (dir ++ [c])) cs) w).2 !! p = disk w !! p).
Proof.
  revert w. induction cs as [|c cs IH]; intros w Hnd; simpl.
  - split_and!; [done.. | | done]. intros c b Hc. by apply elem_of_nil in Hc.
  - apply NoDup_cons in Hnd as [Hc Hnd].
    assert (Hstep : ∃ w1,
      (Promise_all (map (λ c, unlink (dir ++ [c])) (c :: cs)) w).2
        = (Promise_all (map (λ c, unlink (dir ++ [c])) cs) w1).2
      ∧ cwd w1 = cwd w ∧ console w1 = console w
      ∧ ((∃ b, entry (disk w) (dir ++ [c]) = Some (Reg b)
               ∧ disk w1 = delete (dir ++ [c]) (disk w))
         ∨ ((∀ b, entry (disk w) (dir ++ [c]) ≠ Some (Reg b)) ∧ disk w1 = disk w))).
    { simpl. unfold unlink at 1.
      destruct (entry (disk w) (dir ++ [c])) as [[b |] |] eqn:He.
      - exists (set_disk w (delete (dir ++ [c]) (disk w))). split_and!; [| done.. |].
        + simpl. by destruct (Promise_all _ _) as [[e | l] w2].
        + left. by exists b.
      - exists w. split_and!; [done.. |]. by right.
      - exists w. split_and!; [done.. |]. by right. }
    destruct Hstep as (w1 & Heq & Hcwd & Hcon & Hdisk).
    simpl in Heq. rewrite Heq.
    destruct (IH w1 Hnd) as (Hcwd' & Hcon' & Hgone & Hkept).
    assert (Hentry : ∀ c', c' ∈ cs →
              entry (disk w1) (dir ++ [c']) = entry (disk w) (dir ++ [c'])).
    { intros c' Hc'. destruct Hdisk as [(b & _ & ->) | [_ ->]]; [| done].
      apply entry_delete_ne. intros Heq'%app_singleton_inj. by subst c'. }
    split_and!; [congruence.. | |].
    + intros c' b [-> | Hc']%elem_of_cons He.
      * destruct Hdisk as [(b' & _ & Hd) | [Hno _]]; [| by destruct (Hno b)].
        rewrite Hkept.
        -- rewrite Hd. apply lookup_delete_eq.
        -- intros c'' b'' Hc'' Heq'%app_singleton_inj. by subst c''.
      * apply (Hgone c' b Hc'). by rewrite Hentry.
    + intros p Hp. rewrite Hkept.
      * destruct Hdisk as [(b & He & ->) | [_ ->]]; [| done].
        apply lookup_delete_ne. intros <-.
        exact (Hp c b (list_elem_of_here _ _) eq_refl He).
      * intros c' b Hc' ->. rewrite Hentry by done.
        exact (Hp c' b (list_elem_of_further _ _ _ Hc') eq_refl).
Qed.

(** A [Promise.all] over [unlink] calls is fulfilled exactly when every
    entry is a regular file. *)
Lemma unlink_all_fulfilled dir cs w :
  NoDup cs →
  (∃ l, (Promise_all (map (λ c, unlink (dir ++ [c])) cs) w).1 = inr l)
  ↔ ∀ c, c ∈ cs → ∃ b, entry (disk w) (dir ++ [c]) = Some (Reg b).
Proof.
  revert w. induction cs as [|c cs IH]; intros w Hnd; simpl.
  - split; [| by eexists]. intros _ c Hc. by apply elem_of_nil in Hc.
  - apply NoDup_cons in Hnd as [Hc Hnd]. unfold unlink at 1.
    destruct (entry (disk w) (dir ++ [c])) as [[b |] |] eqn:He; simpl.
    + assert (Hentry : ∀ c', c' ∈ cs →
                entry (delete (dir ++ [c]) (disk w)) (dir ++ [c'])
                = entry (disk w) (dir ++ [c'])).
      { intros c' Hc'. apply entry_delete_ne. intros Heq%app_singleton_inj. by subst c'. }
      specialize (IH (set_disk w (delete (dir ++ [c]) (disk w))) Hnd). simpl in IH.
      destruct (Promise_all _ (set_disk w _)) as [[e | l] w2]; simpl in *.
      * split; [by intros [l [=]] |]. intros Hall.
        destruct (proj2 IH) as [l [=]].
        intros c' Hc'. rewrite Hentry by done. apply Hall. by right.
      * split; [| by eexists]. intros _ c' [-> | Hc']%elem_of_cons; [by exists b |].
        rewrite <- Hentry by done. by apply (proj1 IH); [eexists |].
    + split; [by intros [l [=]] |]. intros Hall.
      destruct (Hall c) as [b Hb]; [by left | congruence].
    + split; [by intros [l [=]] |]. intros Hall.
      destruct (Hall c) as [b Hb]; [by left | congruence].
Qed.

End ClearEdges.

Section ClearOutcome.
Import NodeFs Routes Examples.

Implicit Types (w : World) (p : path) (c : string).

Lemma POST_clear_input_after w :
  entry (disk w) (input_dir w) = Some Dir →
  (POST_clear_input w).1
  = match (Promise_all (map (λ c, unlink (input_dir w ++ [c]))
                            (children (disk w) (input_dir w))) w).1 with
    | inl _ => inr clear_failed
    | inr _ => inr (cleared_ok (length (children (disk w) (input_dir w))))
    end
  ∧ disk (POST_clear_input w).2
    = disk (Promise_all (map (λ c, unlink (input_dir w ++ [c]))
                             (children (disk w) (input_dir w))) w).2
  ∧ cwd (POST_clear_input w).2
    = cwd (Promise_all (map (λ c, unlink (input_dir w ++ [c]))
                            (children (disk w) (input_dir w))) w).2.
Proof.
  intros Hdir. rewrite (POST_clear_input_listed _ Hdir).
  by destruct (Promise_all _ w) as [[e | l] w'].
Qed.

(** The handler when [readdir] throws. *)
Lemma POST_clear_input_missing w :
  entry (disk w) (input_dir w) ≠ Some Dir →
  POST_clear_input w = (inr clear_failed, logged w "Error clearing input directory:").
Proof.
  intros Hdir. unfold POST_clear_input, try_catch.
  unfold mbind, IO_bind, io_bind, mret, IO_ret, io_ret, process_cwd, readdir. simpl.
  fold (input_dir w).
  destruct (entry (disk w) (input_dir w)) as [[content |] |]; done.
Qed.

(** X11: the handler does not create the input directory either.  Where it
    is missing (or is a regular file), the answer is "Error clearing input
    directory", nothing is deleted, and the server differs by the line on
    the console only. *)
Theorem clear_needs_input_directory w :
  entry (disk w) (input_dir w) ≠ Some Dir →
  POST_clear_input w = (inr clear_failed, logged w "Error clearing input directory:")
  ∧ disk (POST_clear_input w).2 = disk w.
Proof.
  intros Hdir. by rewrite (POST_clear_input_missing _ Hdir).
Qed.

Lemma clear_needs_input_directory_witness :
  POST_clear_input (set_disk w0 ∅)
  = (inr clear_failed, logged (set_disk w0 ∅) "Error clearing input directory:")
  ∧ disk (POST_clear_input (set_disk w0 ∅)).2 = disk (set_disk w0 ∅).
Proof.
  apply (clear_needs_input_directory (set_disk w0 ∅)).
  vm_compute. intros [=].
Defined.

Lemma entry_cases (d : gmap path node) p :
  entry d p = Some Dir ∨ entry d p ≠ Some Dir.
Proof. destruct (entry d p) as [[content |] |]; [right | left | right]; done. Qed.

(** X8: the clear-input handler never lets an exception escape.  It
    answers either with success and the number of entries [readdir] listed,
    or with "Error clearing input directory". *)
Theorem clear_always_answers w :
  (POST_clear_input w).1 = inr (cleared_ok (length (children (disk w) (input_dir w))))
  ∨ (POST_clear_input w).1 = inr clear_failed.
Proof.
  destruct (entry_cases (disk w) (input_dir w)) as [Hdir | Hdir].
  - destruct (POST_clear_input_after _ Hdir) as (-> & _).
    destruct (Promise_all _ w).1; [by right | by left].
  - rewrite (POST_clear_input_missing _ Hdir). by right.
Qed.

(** X9: with the input directory in place, the handler removes every
    regular file of it whatever it answers: the entries listed afterwards
    are exactly the directories that were entries before.  The answer is
    success exactly when there was no directory among the entries. *)
Theorem clear_input_outcome w :
  entry (disk w) (input_dir w) = Some Dir →
  (∀ c, c ∈ children (disk (POST_clear_input w).2) (input_dir w)
        ↔ c ∈ children (disk w) (input_dir w)
          ∧ disk w !! (input_dir w ++ [c]) = Some Dir)
  ∧ ((POST_clear_input w).1 = inr (cleared_ok (length (children (disk w) (input_dir w))))
     ↔ ∀ c, c ∈ children (disk w) (input_dir w) →
            disk w !! (input_dir w ++ [c]) ≠ Some Dir).
Proof.
  intros Hdir.
  destruct (POST_clear_input_after _ Hdir) as (Hres & Hdisk & _).
  pose proof (entry_valid _ _ _ Hdir) as Hvalid.
  pose proof (children_NoDup (disk w) (input_dir w)) as Hnd.
  destruct (unlink_all_world (input_dir w) _ w Hnd) as (_ & _ & Hgone & Hkept).
  pose proof (unlink_all_fulfilled (input_dir w) _ w Hnd) as Hful.
  rewrite Hdisk, Hres. clear Hdisk Hres. split.
  - intros c. rewrite !elem_of_children. split.
    + intros [Hc [n Hn]].
      destruct (disk w !! (input_dir w ++ [c])) as [[b |] |] eqn:Hbefore.
      * rewrite (Hgone c b) in Hn; [done | |].
        -- apply elem_of_children. by split; [| eexists].
        -- by rewrite entry_child.
      * by split_and!; [| eexists |].
      * rewrite Hkept in Hn; [congruence |].
        intros c' b _ [= <-]%app_singleton_inj. rewrite entry_child by done. congruence.
    + intros [[Hc _] Hsub]. split; [done |]. exists Dir.
      rewrite Hkept; [done |].
      intros c' b _ [= <-]%app_singleton_inj. rewrite entry_child by done. congruence.
  - split.
    + intros Hok c Hc Hsub.
      assert (Hl : ∃ l, (Promise_all (map (λ c, unlink (input_dir w ++ [c]))
                                          (children (disk w) (input_dir w))) w).1 = inr l).
      { destruct (Promise_all _ w).1; [done | by eexists]. }
      destruct (proj1 Hful Hl c Hc) as [b Hb].
      apply elem_of_children in Hc as [Hc _].
      rewrite entry_child in Hb by done. congruence.
    + intros Hnone.
      destruct (proj2 Hful) as [l ->]; [| done].
      intros c Hc. pose proof (Hnone c Hc) as Hno.
      apply elem_of_children in Hc as [Hc [n Hn]].
      rewrite entry_child by done. destruct n as [b |]; [by exists b | done].
Qed.

(** The input directory of [w3] has a directory "old" next to its two
    files: the files go, "old" stays, and the answer is the error. *)
Lemma clear_input_outcome_witness :
  (∀ c, c ∈ children (disk (POST_clear_input w3).2) (input_dir w3)
        ↔ c ∈ children (disk w3) (input_dir w3)
          ∧ disk w3 !! (input_dir w3 ++ [c]) = Some Dir)
  ∧ ((POST_clear_input w3).1 = inr (cleared_ok (length (children (disk w3) (input_dir w3))))
     ↔ ∀ c, c ∈ children (disk w3) (input_dir w3) →
            disk w3 !! (input_dir w3 ++ [c]) ≠ Some Dir).
Proof.
  apply (clear_input_outcome w3).
  vm_compute. reflexivity.
Defined.

(** X10: the handler touches nothing but the entries of the input
    directory: every other place of the disk, the input directory itself
    included, is as it was, and so is the place the server runs in. *)
Theorem clear_touches_entries_only w p :
  (∀ c, p ≠ input_dir w ++ [c]) →
  disk (POST_clear_input w).2 !! p = disk w !! p
  ∧ cwd (POST_clear_input w).2 = cwd w.
Proof.
  intros Hp.
  destruct (entry_cases (disk w) (input_dir w)) as [Hdir | Hdir].
  - destruct (POST_clear_input_after _ Hdir) as (_ & -> & ->).
    pose proof (children_NoDup (disk w) (input_dir w)) as Hnd.
    destruct (unlink_all_world (input_dir w) _ w Hnd) as (Hcwd & _ & _ & Hkept).
    split; [| done]. apply Hkept. intros c b _ Heq. by destruct (Hp c).
  - by rewrite (POST_clear_input_missing _ Hdir).
Qed.

Lemma clear_touches_entries_only_witness :
  disk (POST_clear_input w2).2 !! ["srv"; "app"] = disk w2 !! ["srv"; "app"]
  ∧ cwd (POST_clear_input w2).2 = cwd w2.
Proof.
  apply (clear_touches_entries_only w2 ["srv"; "app"]).
  intros c Heq. vm_compute in Heq. discriminate Heq.
Defined.

(** X12: clearing twice.  After an answer of success a second call finds
    nothing to delete: it answers with success and [deletedFiles] 0 and
    leaves the server as it is. *)
Theorem clear_again_deletes_nothing w r w' :
  POST_clear_input w = (inr r, w') →
  succeeded r = true →
  POST_clear_input w' = (inr (cleared_ok 0), w').
Proof.
  intros Hrun Hok.
  destruct (clear_input_success _ _ _ Hrun Hok) as (Hcwd & Hdir & Hnone & _).
  assert (Hsame : input_dir w' = input_dir w) by (unfold input_dir; by rewrite Hcwd).
  rewrite POST_clear_input_listed by (by rewrite Hsame).
  by rewrite Hsame, Hnone.
Qed.

Lemma clear_again_deletes_nothing_witness :
  POST_clear_input (POST_clear_input w2).2 = (inr (cleared_ok 0), (POST_clear_input w2).2).
Proof.
  apply (clear_again_deletes_nothing w2 (cleared_ok 2)).
  - vm_compute. reflexivity.
  - reflexivity.
Defined.

End ClearOutcome.

(** * Further properties of the page *)

Section SelectionEdits.
Import Routes Page Examples.

Implicit Types (uploadedFiles prev sel : list UploadedFile) (files : list File) (f : File).
Implicit Types (u : UploadedFile) (i start indexToRemove : nat).

Lemma filter_index_past {A} (l : list A) start i :
  (i < start)%nat → filter_index (λ _ index, negb (Nat.eqb index i)) start l = l.
Proof.
  revert start. induction l as [|x l IH]; intros start Hlt; simpl; [done |].
  destruct (Nat.eqb_spec start i) as [-> | _]; [lia |]. simpl. f_equal. apply IH. lia.
Qed.

Lemma filter_index_delete {A} (l : list A) start i :
  filter_index (λ _ index, negb (Nat.eqb index (start + i))) start l = delete i l.
Proof.
  revert start i. induction l as [|x l IH]; intros start i; simpl; [done |].
  destruct i as [|i].
  - rewrite Nat.add_0_r, Nat.eqb_refl. simpl. apply filter_index_past. lia.
  - destruct (Nat.eqb_spec start (start + S i)) as [Heq | _]; [lia |]. simpl. f_equal.
    replace (start + S i)%nat with (S start + i)%nat by lia. apply IH.
Qed.

Lemma removeFile_delete indexToRemove prev :
  removeFile indexToRemove prev = delete indexToRemove prev.
Proof. unfold removeFile. apply (filter_index_delete prev 0 indexToRemove). Qed.

(** X13: [removeFile] takes out the entry at the given position and
    nothing else: what is before it and what is behind it stay, in order.
    With a position in range the selection gets shorter by one; with a
    position behind the end it stays as it is. *)
Theorem removeFile_removes_one indexToRemove prev :
  removeFile indexToRemove prev = take indexToRemove prev ++ drop (S indexToRemove) prev
  ∧ ((indexToRemove < length prev)%nat →
     length (removeFile indexToRemove prev) = (length prev - 1)%nat)
  ∧ ((length prev ≤ indexToRemove)%nat → removeFile indexToRemove prev = prev).
Proof.
  rewrite removeFile_delete. split_and!.
  - by rewrite delete_take_drop.
  - intros Hlt. rewrite length_delete; [lia |]. by apply lookup_lt_is_Some_2.
  - intros Hge. rewrite delete_take_drop, take_ge, drop_ge, app_nil_r by lia. done.
Qed.

Lemma collect_new_none sel files :
  (∀ f, f ∈ files → already_selected sel f) → collect_new sel files = [].
Proof.
  induction files as [|f files IH]; intros Hall; simpl; [done |].
  rewrite (proj2 (fileExists_spec sel f)) by (apply Hall; by left). simpl.
  apply IH. intros g Hg. apply Hall. by right.
Qed.

Lemma collect_new_all sel files :
  (∀ f, f ∈ files → ¬ already_selected sel f) → collect_new sel files = map selected files.
Proof.
  induction files as [|f files IH]; intros Hall; simpl; [done |].
  destruct (fileExists sel f) eqn:Hf.
  - apply fileExists_spec in Hf. destruct (Hall f); [by left | done].
  - simpl. f_equal. apply IH. intros g Hg. apply Hall. by right.
Qed.

Lemma select_Some sel files : select sel (Some files) = sel ++ collect_new sel files.
Proof. reflexivity. Qed.

(** X14: choosing the same files a second time adds nothing: after the
    first event every one of them has a file of its name and size in the
    selection. *)
Theorem select_again_adds_nothing sel files :
  select (select sel (Some files)) (Some files) = select sel (Some files).
Proof.
  rewrite (select_Some (select sel (Some files))), collect_new_none, app_nil_r; [done |].
  intros f Hf. rewrite select_Some.
  destruct (fileExists sel f) eqn:Hold.
  - apply fileExists_spec in Hold as (e & He & Hn & Hs).
    exists e. split_and!; [| done..]. apply elem_of_app. by left.
  - exists (selected f). split_and!; [| done..]. apply elem_of_app. right.
    apply elem_of_collect_new. exists f. split_and!; [done.. |].
    intros Hyes%fileExists_spec. congruence.
Qed.

(** X16: files are compared with the selection before the event only, not
    with each other.  When none of the chosen files has the name and size
    of a selected one, every one of them is added, in the order chosen, a
    file chosen twice in the same event being added twice. *)
Theorem select_adds_all_new sel files :
  (∀ f, f ∈ files → ¬ already_selected sel f) →
  select sel (Some files) = sel ++ map selected files.
Proof. intros Hall. by rewrite select_Some, collect_new_all. Qed.

Lemma select_adds_all_new_witness :
  select [selected notes] (Some [scan_v1; scan_v1])
  = [selected notes] ++ map selected [scan_v1; scan_v1].
Proof.
  apply (select_adds_all_new [selected notes] [scan_v1; scan_v1]).
  intros f Hf (e & He & Hn & Hs).
  apply list_elem_of_singleton in He as ->.
  apply elem_of_cons in Hf as [-> | Hf]; [discriminate Hn |].
  apply elem_of_cons in Hf as [-> | Hf]; [discriminate Hn |].
  by apply elem_of_nil in Hf.
Defined.

(** X17: adding one new file and then removing the entry at the position
    it was given brings the selection back. *)
Theorem select_then_remove sel f :
  ¬ already_selected sel f →
  removeFile (length sel) (select sel (Some [f])) = sel.
Proof.
  intros Hnew.
  rewrite select_Some, collect_new_all
    by (intros g Hg%list_elem_of_singleton; by subst g).
  rewrite removeFile_delete.
  rewrite delete_take_drop, take_app_length, drop_app_ge by (simpl; lia).
  replace (S (length sel) - length sel)%nat with 1%nat by lia. simpl.
  by rewrite app_nil_r.
Qed.

Lemma select_then_remove_witness :
  removeFile (length [selected scan_v1]) (select [selected scan_v1] (Some [notes]))
  = [selected scan_v1].
Proof.
  apply (select_then_remove [selected scan_v1] notes).
  intros (e & He & Hn & Hs).
  apply list_elem_of_singleton in He as ->. discriminate Hn.
Defined.

End SelectionEdits.

Section SelectionInvariants.
Import Routes Page Examples.

Implicit Types (sel : list UploadedFile) (files : list File) (f : File) (u : UploadedFile).

Lemma entry_key_selected f : entry_key (selected f) = file_key f.
Proof. reflexivity. Qed.

Lemma collect_new_keys sel files k :
  k ∈ map entry_key (collect_new sel files) → k ∈ map file_key files.
Proof.
  intros (u & -> & Hu)%list_elem_of_fmap.
  apply elem_of_collect_new in Hu as (f & Hf & -> & _).
  apply list_elem_of_fmap. by exists f.
Qed.

Lemma collect_new_NoDup sel files :
  NoDup (map file_key files) → NoDup (map entry_key (collect_new sel files)).
Proof.
  induction files as [|f files IH]; simpl; [constructor |].
  intros [Hf Hnd]%NoDup_cons.
  destruct (fileExists sel f); simpl; [by apply IH |].
  apply NoDup_cons. split; [| by apply IH].
  intros Hin. apply Hf. by apply (collect_new_keys sel).
Qed.

Lemma NoDup_delete_fmap {A B} (g : A → B) (l : list A) i :
  NoDup (map g l) → NoDup (map g (delete i l)).
Proof.
  intros Hnd. apply (sublist_NoDup _ _ Hnd).
  change (g <$> delete i l `sublist_of` g <$> l).
  apply (fmap_sublist g), sublist_delete.
Qed.

(** X15: the handlers keep the selection free of two entries with the same
    name and size, provided the files chosen in one event differ from each
    other in name or size: [handleFileSelect] adds none that matches, and
    [removeFile] only takes an entry out. *)
Theorem selection_stays_distinct sel :
  NoDup (map entry_key sel) →
  (∀ files, NoDup (map file_key files) →
            NoDup (map entry_key (select sel (Some files))))
  ∧ (∀ indexToRemove, NoDup (map entry_key (removeFile indexToRemove sel))).
Proof.
  intros Hsel. split.
  - intros files Hfiles. rewrite select_Some, map_app. apply NoDup_app. split_and!.
    + done.
    + intros k (e & -> & He)%list_elem_of_fmap (u & Hk & Hu)%list_elem_of_fmap.
      apply elem_of_collect_new in Hu as (f & Hf & -> & Hnew).
      apply Hnew. exists e. injection Hk as Hn Hs. by split_and!.
    + by apply collect_new_NoDup.
  - intros i. rewrite removeFile_delete. by apply NoDup_delete_fmap.
Qed.

Lemma selection_stays_distinct_witness :
  (∀ files, NoDup (map file_key files) →
            NoDup (map entry_key (select [selected scan_v1; selected notes] (Some files))))
  ∧ (∀ indexToRemove,
       NoDup (map entry_key (removeFile indexToRemove [selected scan_v1; selected notes]))).
Proof.
  apply (selection_stays_distinct [selected scan_v1; selected notes]).
  apply (bool_decide_unpack _). vm_compute. reflexivity.
Defined.

(** X18: every entry [handleFileSelect] adds shows the name, the size and
    the type of the file it holds, and [removeFile] changes no entry: a
    selection of such entries stays one, whichever files are chosen or
    removed. *)
Theorem selection_stays_consistent sel :
  Forall consistent sel →
  (∀ chosen : option (list File), Forall consistent (select sel chosen))
  ∧ (∀ indexToRemove, Forall consistent (removeFile indexToRemove sel)).
Proof.
  intros Hsel. split.
  - intros [files |]; [| done].
    rewrite select_Some. apply Forall_app. split; [done |].
    apply Forall_forall. intros u (f & _ & -> & _)%elem_of_collect_new. done.
  - intros i. rewrite removeFile_delete.
    rewrite delete_take_drop. apply Forall_app.
    split; [by apply Forall_take | by apply Forall_drop].
Qed.

Lemma selection_stays_consistent_witness :
  (∀ chosen : option (list File), Forall consistent (select [selected scan_v1] chosen))
  ∧ (∀ indexToRemove, Forall consistent (removeFile indexToRemove [selected scan_v1])).
Proof.
  apply (selection_stays_consistent [selected scan_v1]).
  repeat constructor.
Defined.

End SelectionInvariants.

Section MultipartNames.
Import NodeFs Routes Page.

Implicit Types (s t rest : string) (a b c repl : ascii).
Implicit Types (hit : ascii → ascii → ascii → bool).

Lemma string_length_ind (P : string → Prop) :
  (∀ s, (∀ t, (String.length t < String.length s)%nat → P t) → P s) → ∀ s, P s.
Proof.
  intros Hstep s. remember (String.length s) as n eqn:Hn. revert s Hn.
  induction n as [n IH] using lt_wf_ind. intros s ->.
  apply Hstep. intros t Ht. by apply (IH (String.length t)).
Qed.

Lemma replace3_three hit repl a b c rest :
  replace3 hit repl (String a (String b (String c rest)))
  = if hit a b c then String repl (replace3 hit repl rest)
    else String a (replace3 hit repl (String b (String c rest))).
Proof. reflexivity. Qed.

Lemma replace3_one hit repl a : replace3 hit repl (String a "") = String a "".
Proof. reflexivity. Qed.

Lemma replace3_two hit repl a b :
  replace3 hit repl (String a (String b "")) = String a (String b "").
Proof. reflexivity. Qed.

(** The round trip brings in no ['/'] and no NUL. *)
Lemma replace3_plain hit repl s :
  plain_char repl = true →
  forallb plain_char (String.list_ascii_of_string s) = true →
  forallb plain_char (String.list_ascii_of_string (replace3 hit repl s)) = true.
Proof.
  intros Hby. induction s as [s IH] using string_length_ind.
  destruct s as [|a [|b [|c rest]]]; [done.. |].
  rewrite replace3_three. intros Hs.
  destruct (hit a b c).
  - cbn [String.list_ascii_of_string forallb]. rewrite Hby. cbn [andb].
    apply IH; [simpl; lia |].
    cbn [String.list_ascii_of_string forallb] in Hs.
    by apply andb_true_iff in Hs as [_ [_ [_ Hs]%andb_true_iff]%andb_true_iff].
  - cbn [String.list_ascii_of_string forallb] in Hs.
    apply andb_true_iff in Hs as [Ha Hs].
    change (forallb plain_char (a :: String.list_ascii_of_string
                                       (replace3 hit repl (String b (String c rest)))) = true).
    cbn [forallb]. rewrite Ha. cbn [andb].
    apply IH; [simpl; lia | done].
Qed.

Lemma escape_plain s :
  forallb plain_char (String.list_ascii_of_string s) = true →
  forallb plain_char (String.list_ascii_of_string (escape s)) = true.
Proof.
  induction s as [|a s IH]; [done |].
  cbn [String.list_ascii_of_string forallb escape].
  intros [Ha Hs]%andb_true_iff. specialize (IH Hs).
  destruct (Ascii.eqb a lf); [by simpl; rewrite IH |].
  destruct (Ascii.eqb a cr); [by simpl; rewrite IH |].
  destruct (Ascii.eqb a dquote); [by simpl; rewrite IH |].
  cbn [String.list_ascii_of_string forallb]. by rewrite Ha, IH.
Qed.

(** It makes no name empty. *)
Lemma replace3_empty hit repl s : replace3 hit repl s = "" → s = "".
Proof.
  destruct s as [|a [|b [|c rest]]]; [done.. |].
  rewrite replace3_three. by destruct (hit a b c).
Qed.

Lemma escape_empty s : escape s = "" → s = "".
Proof.
  destruct s as [|a s]; [done |]. simpl.
  by destruct (Ascii.eqb a lf), (Ascii.eqb a cr), (Ascii.eqb a dquote).
Qed.

(** And a name that arrives as dots only was sent as it arrived. *)
Lemma replace3_dots hit repl s :
  Ascii.eqb "." repl = false →
  dots (replace3 hit repl s) = true → replace3 hit repl s = s.
Proof.
  intros Hby. induction s as [s IH] using string_length_ind.
  destruct s as [|a [|b [|c rest]]]; [done.. |].
  rewrite replace3_three. destruct (hit a b c).
  - unfold dots. cbn [String.list_ascii_of_string forallb]. by rewrite Hby.
  - unfold dots. cbn [String.list_ascii_of_string forallb].
    intros [_ Hs]%andb_true_iff. f_equal. apply IH; [simpl; lia | done].
Qed.

Lemma escape_dots s : dots (escape s) = true → escape s = s.
Proof.
  induction s as [|a s IH]; [done |]. simpl.
  destruct (Ascii.eqb a lf); [done |].
  destruct (Ascii.eqb a cr); [done |].
  destruct (Ascii.eqb a dquote); [done |].
  unfold dots. cbn [String.list_ascii_of_string forallb].
  intros [_ Hs]%andb_true_iff. f_equal. by apply IH.
Qed.

Lemma multipart_name_dots s : dots (multipart_name s) = true → multipart_name s = s.
Proof.
  unfold multipart_name, unescape. intros H.
  rewrite (replace3_dots is_22 dquote _ eq_refl H) in H |- *.
  rewrite (replace3_dots is_0D cr _ eq_refl H) in H |- *.
  rewrite (replace3_dots is_0A lf _ eq_refl H) in H |- *.
  by apply escape_dots.
Qed.

(** An entry name arrives as an entry name. *)
Lemma multipart_name_valid s : valid_name s = true → valid_name (multipart_name s) = true.
Proof.
  unfold valid_name.
  intros [[[H1 H2]%andb_true_iff H3]%andb_true_iff H4]%andb_true_iff.
  apply negb_true_iff in H1, H2, H3.
  apply String.eqb_neq in H1, H2, H3.
  repeat (apply andb_true_iff; split).
  - apply negb_true_iff, String.eqb_neq. intros Hempty. apply H1.
    unfold multipart_name, unescape in Hempty.
    by apply replace3_empty, replace3_empty, replace3_empty, escape_empty in Hempty.
  - apply negb_true_iff, String.eqb_neq. intros Hdot. apply H2.
    rewrite <- Hdot. symmetry. apply multipart_name_dots. by rewrite Hdot.
  - apply negb_true_iff, String.eqb_neq. intros Hdot. apply H3.
    rewrite <- Hdot. symmetry. apply multipart_name_dots. by rewrite Hdot.
  - unfold multipart_name, unescape.
    by apply replace3_plain, replace3_plain, replace3_plain, escape_plain.
Qed.

End MultipartNames.

Section UploadRunEdges.
Import NodeFs Routes Page Examples.

Implicit Types (w wk : World) (st : State) (u v : UploadedFile) (c : string).
Implicit Types (batch before after : list UploadedFile) (p : path).
Implicit Types (net : list FetchOutcome).

Lemma upload_all_result net batch wk :
  (upload_all net batch wk).1
  = if forallb answered (take (length batch) net) then inr tt else inl NetworkError.
Proof.
  revert net wk. induction batch as [|u batch IH]; intros net wk; [done |].
  simpl. unfold mbind, IO_bind, io_bind, fetch.
  destruct net as [|[] net]; simpl; try done.
  by rewrite IH, take_nil.
Qed.

(** The state a run ends in, once it passed the guard: the selection is
    emptied when none of the requests it makes (one to clear, one for each
    file) is rejected, and kept otherwise. *)
Lemma uploadFiles_state net st w :
  uploadedFiles st ≠ [] → isUploading st = false →
  (uploadFiles net st w).1
  = {| uploadedFiles :=
         if forallb answered (take (S (length (uploadedFiles st))) net) then []
         else uploadedFiles st;
       isUploading := false |}.
Proof.
  intros Hsel Hidle. unfold uploadFiles. rewrite Hidle, orb_false_r.
  destruct (uploadedFiles st) as [|u0 us] eqn:Hus; [done |]. cbn [length Nat.eqb].
  unfold mbind, IO_bind, io_bind, fetch.
  destruct net as [|[] net]; cbn [hd tl take forallb answered andb]; try done.
  - pose proof (upload_all_result [] (u0 :: us) (POST_clear_input w).2) as Hres.
    rewrite take_nil in Hres. simpl forallb in Hres.
    destruct (upload_all _ _ _) as [[e | []] w']; [done | done].
  - pose proof (upload_all_result net (u0 :: us) (POST_clear_input w).2) as Hres.
    cbn [length] in Hres.
    destruct (upload_all _ _ _) as [[e | []] w']; simpl in Hres;
      by destruct (forallb answered (take (S (length us)) net)).
Qed.

Lemma uploadFiles_guard net st w :
  uploadedFiles st = [] ∨ isUploading st = true → uploadFiles net st w = (st, w).
Proof. unfold uploadFiles. intros [-> | ->]; [done | by rewrite orb_true_r]. Qed.

Lemma forallb_answered net : Forall (λ o, o = Answered) net → forallb answered net = true.
Proof. induction 1 as [|o net -> _ IH]; [done | by simpl]. Qed.

Lemma uploadFiles_twice net net' st w w' :
  Forall (λ o, o = Answered) net →
  uploadFiles net' (uploadFiles net st w).1 w' = ((uploadFiles net st w).1, w').
Proof.
  intros Hnet.
  destruct (decide (uploadedFiles st = [])) as [Hsel | Hsel].
  { rewrite (uploadFiles_guard net st w) by by left. apply uploadFiles_guard. by left. }
  destruct (isUploading st) eqn:Hidle.
  { rewrite (uploadFiles_guard net st w) by by right. apply uploadFiles_guard. by right. }
  rewrite (uploadFiles_state net st w Hsel Hidle).
  rewrite forallb_answered by by apply Forall_take.
  by apply uploadFiles_guard; left.
Qed.

(** X22: [uploadFiles] returns at once, leaving server and state alone,
    when nothing is selected or an upload is under way.  A run that passes
    this guard ends with [isUploading] reset, and with the selection emptied
    when none of its requests was rejected and kept as it was otherwise.
    So after a run whose requests were all answered a further call does
    nothing: the input directory is not cleared a second time. *)
Theorem uploadFiles_again_does_nothing net st w :
  (uploadedFiles st = [] ∨ isUploading st = true → uploadFiles net st w = (st, w))
  ∧ (uploadedFiles st ≠ [] → isUploading st = false →
     (uploadFiles net st w).1
     = {| uploadedFiles :=
            if forallb answered (take (S (length (uploadedFiles st))) net) then []
            else uploadedFiles st;
          isUploading := false |})
  ∧ (Forall (λ o, o = Answered) net →
     ∀ net' w', uploadFiles net' (uploadFiles net st w).1 w' = ((uploadFiles net st w).1, w')).
Proof.
  split_and!.
  - apply uploadFiles_guard.
  - apply uploadFiles_state.
  - intros Hnet net' w'. by apply uploadFiles_twice.
Qed.

Lemma stored_at_cwd w wk name : cwd wk = cwd w → stored_at wk name = stored_at w name.
Proof. intros H. unfold stored_at, input_dir. by rewrite H. Qed.

Lemma fetch_upload_exact wk u :
  cwd (fetch_upload wk u) = cwd wk
  ∧ (disk (fetch_upload wk u) = disk wk
     ∨ (disk (fetch_upload wk u)
        = <[stored_at wk (multipart_name (file_name (file u))) := Reg (file_bytes (file u))]>
            (disk wk)
        ∧ entry (disk wk) (stored_at wk (multipart_name (file_name (file u)))) ≠ Some Dir)).
Proof.
  unfold fetch_upload. rewrite POST_upload_file. cbn [received file_name file_bytes].
  destruct (writeFile _ _ wk) as [[e | []] w'] eqn:Hwrite; simpl.
  - apply writeFile_failed in Hwrite as ->. by split; [| left].
  - apply writeFile_ok in Hwrite as (-> & _ & _ & Hnodir). by split; [| right].
Qed.

Lemma ready_upload w0 wk u : ready_for_uploads w0 wk → ready_for_uploads w0 (fetch_upload wk u).
Proof.
  intros (Hcwd & Hdir & Hfiles). unfold ready_for_uploads.
  destruct (fetch_upload_exact wk u) as [Hcwd' [-> | [-> Hnodir]]].
  - by split_and!; [congruence | |].
  - split_and!; [congruence | |].
    + rewrite entry_insert_ne; [done |]. intros Heq. by rewrite Heq in Hnodir.
    + intros c Hc.
      destruct (decide (stored_at wk (multipart_name (file_name (file u))) = input_dir w0 ++ [c]))
        as [-> | Hne].
      * by rewrite lookup_insert_eq.
      * rewrite lookup_insert_ne by done. by apply Hfiles.
Qed.

Lemma ready_uploads w0 batch wk :
  ready_for_uploads w0 wk → ready_for_uploads w0 (foldl fetch_upload wk batch).
Proof.
  revert wk. induction batch as [|u batch IH]; intros wk Hready; simpl; [done |].
  by apply IH, ready_upload.
Qed.

Lemma ready_after_clear w r :
  (POST_clear_input w).1 = inr r → succeeded r = true →
  ready_for_uploads w (fetch_clear_input w).
Proof.
  intros Hclear Hok. unfold fetch_clear_input.
  destruct (POST_clear_input w) as [res w1] eqn:Hrun. simpl in Hclear. subst res.
  destruct (clear_input_success _ _ _ Hrun Hok) as (Hcwd & Hdir & Hnone & _).
  split_and!; [done.. |]. intros c Hc Hsub.
  assert (Hin : c ∈ children (disk w1) (input_dir w)).
  { apply elem_of_children. by split; [| eexists]. }
  rewrite Hnone in Hin. by apply elem_of_nil in Hin.
Qed.

(** A file whose name arrives as one the file system accepts goes in, once
    the directory is ready. *)
Lemma ready_upload_stored w0 wk u :
  ready_for_uploads w0 wk →
  usable (input_dir w0 ++ [multipart_name (file_name (file u))]) = true →
  disk (fetch_upload wk u) !! (input_dir w0 ++ [multipart_name (file_name (file u))])
  = Some (Reg (file_bytes (file u))).
Proof.
  intros (Hcwd & Hdir & Hfiles) Hname.
  unfold fetch_upload. rewrite POST_upload_file. cbn [received file_name file_bytes].
  rewrite (stored_at_cwd w0 wk) by done.
  rewrite (stored_at_plain _ _ (usable_last _ _ Hname)), writeFile_run; simpl.
  - apply lookup_insert_eq.
  - done.
  - unfold parent. by rewrite removelast_last.
  - rewrite entry_child by done. by apply Hfiles.
Qed.

(** Later uploads to other places leave a stored file alone. *)
Lemma uploads_elsewhere w0 batch wk p :
  cwd wk = cwd w0 →
  (∀ v, v ∈ batch → stored_at w0 (multipart_name (file_name (file v))) ≠ p) →
  disk (foldl fetch_upload wk batch) !! p = disk wk !! p
  ∧ cwd (foldl fetch_upload wk batch) = cwd w0.
Proof.
  revert wk. induction batch as [|v batch IH]; intros wk Hcwd Hother; simpl; [done |].
  destruct (fetch_upload_exact wk v) as [Hcwd' Hdisk].
  destruct (IH (fetch_upload wk v)) as [-> Hend].
  - congruence.
  - intros v' Hv'. apply Hother. by right.
  - split; [| done]. destruct Hdisk as [-> | [-> _]]; [done |].
    rewrite (stored_at_cwd w0 wk) by done.
    apply lookup_insert_ne. apply Hother. by left.
Qed.

Lemma upload_run_stores net st w r before u after :
  uploadedFiles st = before ++ u :: after →
  isUploading st = false →
  uploadedFiles (uploadFiles net st w).1 = [] →
  (POST_clear_input w).1 = inr r →
  succeeded r = true →
  usable (input_dir w ++ [multipart_name (file_name (file u))]) = true →
  (∀ v, v ∈ after →
        stored_at w (multipart_name (file_name (file v)))
        ≠ stored_at w (multipart_name (file_name (file u)))) →
  disk (uploadFiles net st w).2 !! (input_dir w ++ [multipart_name (file_name (file u))])
  = Some (Reg (file_bytes (file u))).
Proof.
  intros Hsel Hidle Hdone Hclear Hok Hname Hlater.
  rewrite uploadFiles_done; [| by rewrite Hsel; destruct before | done..].
  rewrite Hsel, foldl_app. simpl.
  pose proof (ready_uploads w before _ (ready_after_clear _ _ Hclear Hok)) as Hready.
  set (wb := foldl fetch_upload (fetch_clear_input w) before) in *.
  destruct (uploads_elsewhere w after (fetch_upload wb u)
              (input_dir w ++ [multipart_name (file_name (file u))])) as [-> _].
  - destruct (fetch_upload_exact wb u) as [-> _]. by destruct Hready.
  - intros v Hv. rewrite <- (stored_at_plain w _ (usable_last _ _ Hname)). by apply Hlater.
  - by apply ready_upload_stored.
Qed.

(** X19: when a run has emptied the selection (none of its requests was
    rejected) and its clearing was handled with success, every file of the
    selection whose name arrives at the server as a name the file system
    accepts in the input directory is there after the run, under the name
    that arrived and with its bytes, provided no later file of the
    selection is stored at the same place. *)
Theorem uploadFiles_stores_selection net st w r before u after :
  uploadedFiles st = before ++ u :: after →
  isUploading st = false →
  uploadedFiles (uploadFiles net st w).1 = [] →
  (POST_clear_input w).1 = inr r →
  succeeded r = true →
  usable (input_dir w ++ [multipart_name (file_name (file u))]) = true →
  (∀ v, v ∈ after →
        stored_at w (multipart_name (file_name (file v)))
        ≠ stored_at w (multipart_name (file_name (file u)))) →
  readdir (input_dir w) (uploadFiles net st w).2
    = (inr (children (disk (uploadFiles net st w).2) (input_dir w)), (uploadFiles net st w).2)
  ∧ multipart_name (file_name (file u))
    ∈ children (disk (uploadFiles net st w).2) (input_dir w)
  ∧ disk (uploadFiles net st w).2 !! (input_dir w ++ [multipart_name (file_name (file u))])
    = Some (Reg (file_bytes (file u))).
Proof.
  intros Hsel Hidle Hdone Hclear Hok Hname Hlater.
  pose proof (upload_run_stores _ _ _ _ _ _ _ Hsel Hidle Hdone Hclear Hok Hname Hlater)
    as Hstored.
  split_and!; [| | done].
  - rewrite uploadFiles_done; [| by rewrite Hsel; destruct before | done..].
    destruct (ready_uploads w (uploadedFiles st) _ (ready_after_clear _ _ Hclear Hok))
      as (_ & Hdir & _).
    unfold readdir. by rewrite Hdir.
  - apply elem_of_children. by split; [| eexists].
Qed.

Lemma uploadFiles_stores_selection_witness :
  readdir (input_dir w2) (uploadFiles [] (run_of [quoted; notes]) w2).2
    = (inr (children (disk (uploadFiles [] (run_of [quoted; notes]) w2).2) (input_dir w2)),
       (uploadFiles [] (run_of [quoted; notes]) w2).2)
  ∧ multipart_name (file_name (file (selected quoted)))
    ∈ children (disk (uploadFiles [] (run_of [quoted; notes]) w2).2) (input_dir w2)
  ∧ disk (uploadFiles [] (run_of [quoted; notes]) w2).2
      !! (input_dir w2 ++ [multipart_name (file_name (file (selected quoted)))])
    = Some (Reg (file_bytes (file (selected quoted)))).
Proof.
  apply (uploadFiles_stores_selection [] (run_of [quoted; notes]) w2 (cleared_ok 2)
           [] (selected quoted) [selected notes]).
  - reflexivity.
  - reflexivity.
  - reflexivity.
  - vm_compute. reflexivity.
  - reflexivity.
  - reflexivity.
  - intros v Hv%list_elem_of_singleton. subst v. vm_compute. intros [=].
Defined.

End UploadRunEdges.

Section UploadRunListing.
Import NodeFs Routes Page Examples.

Implicit Types (w wk : World) (st : State) (u v : UploadedFile) (c : string) (p : path).
Implicit Types (net : list FetchOutcome).

Lemma clear_frame w p :
  (∀ c, p ≠ input_dir w ++ [c]) →
  disk (fetch_clear_input w) !! p = disk w !! p ∧ cwd (fetch_clear_input w) = cwd w.
Proof.
  intros Hp. unfold fetch_clear_input.
  destruct (entry_cases (disk w) (input_dir w)) as [Hdir | Hdir].
  - destruct (POST_clear_input_after _ Hdir) as (_ & -> & ->).
    pose proof (children_NoDup (disk w) (input_dir w)) as Hnd.
    destruct (unlink_all_world (input_dir w) _ w Hnd) as (Hcwd & _ & _ & Hkept).
    split; [| done]. apply Hkept. intros c b _ Heq. by destruct (Hp c).
  - by rewrite (POST_clear_input_missing _ Hdir).
Qed.

(** X21: a run whose files all have plain names stays inside the input
    directory, however its requests fare: every place of the disk that is
    not an entry of the input directory is after the run as it was before,
    and the server runs where it ran. *)
Theorem uploadFiles_stays_in_input_directory net st w p :
  Forall (λ u, valid_name (file_name (file u)) = true) (uploadedFiles st) →
  (∀ c, p ≠ input_dir w ++ [c]) →
  disk (uploadFiles net st w).2 !! p = disk w !! p
  ∧ cwd (uploadFiles net st w).2 = cwd w.
Proof.
  intros Hnames Hp.
  destruct (decide (uploadedFiles st = [])) as [Hsel | Hsel].
  { by rewrite (uploadFiles_guard net st w) by by left. }
  destruct (isUploading st) eqn:Hidle.
  { by rewrite (uploadFiles_guard net st w) by by right. }
  destruct (uploadFiles_run net st w Hsel Hidle) as [k ->].
  assert (Hstart : disk (if reaches (hd Answered net) then fetch_clear_input w else w) !! p
                   = disk w !! p
                   ∧ cwd (if reaches (hd Answered net) then fetch_clear_input w else w) = cwd w).
  { destruct (reaches (hd Answered net)); [by apply clear_frame | done]. }
  destruct Hstart as [Hdisk Hcwd].
  destruct (uploads_elsewhere w (take k (uploadedFiles st)) _ p Hcwd) as [-> ->]; [| done].
  intros v Hv%(subseteq_take k (uploadedFiles st)). rewrite Forall_forall in Hnames.
  rewrite (stored_at_plain _ _ (multipart_name_valid _ (Hnames v Hv))).
  intros Heq. by destruct (Hp (multipart_name (file_name (file v)))).
Qed.

Lemma uploadFiles_stays_in_input_directory_witness :
  disk (uploadFiles [Answered; LostResponse] (run_of [scan_v2; notes]) w2).2 !! ["srv"; "app"]
  = disk w2 !! ["srv"; "app"]
  ∧ cwd (uploadFiles [Answered; LostResponse] (run_of [scan_v2; notes]) w2).2 = cwd w2.
Proof.
  apply (uploadFiles_stays_in_input_directory [Answered; LostResponse]
           (run_of [scan_v2; notes]) w2 ["srv"; "app"]).
  - repeat constructor.
  - intros c Heq. vm_compute in Heq. discriminate Heq.
Defined.

(** X20: after a run that has emptied the selection (none of its requests
    was rejected), started with a clearing that was handled with success,
    when the names of the files arrive at the server as names the file
    system accepts in the input directory that differ from each other, the
    input directory lists exactly the names that arrived, each once, and
    each entry holds the bytes of the file of that name. *)
Theorem uploadFiles_exact_listing net st w r :
  uploadedFiles st ≠ [] →
  isUploading st = false →
  uploadedFiles (uploadFiles net st w).1 = [] →
  (POST_clear_input w).1 = inr r →
  succeeded r = true →
  Forall (λ u, usable (input_dir w ++ [multipart_name (file_name (file u))]) = true)
         (uploadedFiles st) →
  NoDup (map (λ u, multipart_name (file_name (file u))) (uploadedFiles st)) →
  children (disk (uploadFiles net st w).2) (input_dir w)
    ≡ₚ map (λ u, multipart_name (file_name (file u))) (uploadedFiles st)
  ∧ Forall (λ u, disk (uploadFiles net st w).2
                   !! (input_dir w ++ [multipart_name (file_name (file u))])
                 = Some (Reg (file_bytes (file u)))) (uploadedFiles st).
Proof.
  intros Hsel Hidle Hdone Hclear Hok Hnames Hnd.
  rewrite Forall_forall in Hnames.
  assert (Hplain : ∀ u, u ∈ uploadedFiles st →
            stored_at w (multipart_name (file_name (file u)))
            = input_dir w ++ [multipart_name (file_name (file u))]).
  { intros u Hu. apply stored_at_plain. eapply usable_last. by apply Hnames. }
  assert (Hstored : ∀ u, u ∈ uploadedFiles st →
            disk (uploadFiles net st w).2
              !! (input_dir w ++ [multipart_name (file_name (file u))])
            = Some (Reg (file_bytes (file u)))).
  { intros u Hu. apply list_elem_of_split in Hu as (before & after & Hsplit).
    apply (upload_run_stores net st w r before u after); try done.
    - apply Hnames. rewrite Hsplit. apply elem_of_app. right. by left.
    - intros v Hv. rewrite !Hplain.
      + intros Heq%app_singleton_inj.
        rewrite Hsplit, map_app in Hnd. simpl in Hnd.
        apply NoDup_app in Hnd as (_ & _ & [Hu _]%NoDup_cons).
        apply Hu. rewrite <- Heq.
        apply (list_elem_of_fmap_2 (λ u, multipart_name (file_name (file u)))). done.
      + rewrite Hsplit. apply elem_of_app. right. by left.
      + rewrite Hsplit. apply elem_of_app. right. by right. }
  split; [| by apply Forall_forall].
  apply NoDup_Permutation; [apply children_NoDup | done |].
  intros c. split.
  - intros Hc.
    assert (Hfrom : only_from (uploadedFiles st) w (uploadFiles net st w).2).
    { rewrite uploadFiles_done by done.
      apply only_from_uploads; [done | by eapply only_from_cleared]. }
    destruct Hfrom as [_ Hfrom]. destruct (Hfrom c Hc) as (u & Hu & Hpath & _).
    rewrite Hplain in Hpath by done.
    apply app_singleton_inj in Hpath as <-.
    apply (list_elem_of_fmap_2 (λ u, multipart_name (file_name (file u)))). done.
  - intros (u & -> & Hu)%list_elem_of_fmap.
    apply elem_of_children. split; [by apply Hnames |]. rewrite (Hstored u Hu). by eexists.
Qed.

Lemma uploadFiles_exact_listing_witness :
  children (disk (uploadFiles [] (run_of [quoted; notes]) w2).2) (input_dir w2)
    ≡ₚ map (λ u, multipart_name (file_name (file u))) (uploadedFiles (run_of [quoted; notes]))
  ∧ Forall (λ u, disk (uploadFiles [] (run_of [quoted; notes]) w2).2
                   !! (input_dir w2 ++ [multipart_name (file_name (file u))])
                 = Some (Reg (file_bytes (file u))))
           (uploadedFiles (run_of [quoted; notes])).
Proof.
  apply (uploadFiles_exact_listing [] (run_of [quoted; notes]) w2 (cleared_ok 2)).
  - discriminate.
  - reflexivity.
  - reflexivity.
  - vm_compute. reflexivity.
  - reflexivity.
  - repeat constructor.
  - apply (bool_decide_unpack _). vm_compute. reflexivity.
Defined.

End UploadRunListing.

Section Keyboard.
Import NodeFs Routes Page Examples.

Implicit Types (w : World) (st : State) (event : KeyboardEvent).
Implicit Types (net : list FetchOutcome).

(** X23: a key pressed twice does what it does pressed once, when every
    request of the run that the first press may have started was answered.
    For Shift+Enter the second press then finds the selection empty (or an
    upload under way) and neither clears the input directory nor uploads
    again; any other key changes nothing and is not prevented. *)
Theorem handleKeyDown_twice net net' event st w :
  Forall (λ o, o = Answered) net →
  (handleKeyDown net' event (handleKeyDown net event st w).2.1
                 (handleKeyDown net event st w).2.2).2
  = (handleKeyDown net event st w).2
  ∧ ((handleKeyDown net event st w).1 = false → (handleKeyDown net event st w).2 = (st, w)).
Proof.
  intros Hnet. unfold handleKeyDown.
  destruct (shiftKey event && String.eqb (key event) "Enter"); simpl; [| done].
  split; [| done].
  rewrite uploadFiles_twice by done. by destruct (uploadFiles net st w).
Qed.

Lemma handleKeyDown_twice_witness :
  (handleKeyDown [LostRequest] shift_enter
                 (handleKeyDown [Answered; Answered] shift_enter (run_of [scan_v2]) w2).2.1
                 (handleKeyDown [Answered; Answered] shift_enter (run_of [scan_v2]) w2).2.2).2
  = (handleKeyDown [Answered; Answered] shift_enter (run_of [scan_v2]) w2).2
  ∧ ((handleKeyDown [Answered; Answered] shift_enter (run_of [scan_v2]) w2).1 = false →
     (handleKeyDown [Answered; Answered] shift_enter (run_of [scan_v2]) w2).2 = (run_of [scan_v2], w2)).
Proof.
  apply (handleKeyDown_twice [Answered; Answered] [LostRequest] shift_enter (run_of [scan_v2]) w2).
  repeat constructor.
Defined.

End Keyboard.

Section UploadCount.
Import NodeFs Routes Page Examples.

Implicit Types (w : World) (f : File) (c : string) (d : gmap path node) (dir : path).

Lemma elem_of_children_insert d dir c name (n : node) :
  usable (dir ++ [name]) = true →
  c ∈ children (<[dir ++ [name] := n]> d) dir ↔ c = name ∨ c ∈ children d dir.
Proof.
  intros Hname. rewrite !elem_of_children.
  destruct (decide (c = name)) as [-> | Hne].
  - rewrite lookup_insert_eq. split; [by left |]. intros _. by split; [| eexists].
  - rewrite lookup_insert_ne by (intros Heq%app_singleton_inj; by subst c).
    split; [by right | by intros [? | ?]].
Qed.

(** X24: storing a file whose name the file system accepts as an entry of
    the input directory changes the listing of the directory by that name
    only.  A name that was not listed is listed once more afterwards, so the
    next clearing counts one file more; a name that was listed is listed as
    before: the file took the place of the old one. *)
Theorem upload_adds_at_most_one_entry f w :
  usable (input_dir w ++ [file_name f]) = true →
  entry (disk w) (input_dir w) = Some Dir →
  entry (disk w) (input_dir w ++ [file_name f]) ≠ Some Dir →
  (file_name f ∈ children (disk w) (input_dir w) →
   children (disk (POST_upload (upload_request f) w).2) (input_dir w)
     ≡ₚ children (disk w) (input_dir w))
  ∧ (file_name f ∉ children (disk w) (input_dir w) →
     children (disk (POST_upload (upload_request f) w).2) (input_dir w)
       ≡ₚ file_name f :: children (disk w) (input_dir w)).
Proof.
  intros Hname Hdir Hfree.
  assert (Hrun : disk (POST_upload (upload_request f) w).2
                 = <[input_dir w ++ [file_name f] := Reg (file_bytes f)]> (disk w)).
  { rewrite POST_upload_file, (stored_at_plain _ _ (usable_last _ _ Hname)), writeFile_run;
      [done.. | | done].
    unfold parent. by rewrite removelast_last. }
  rewrite Hrun. split; intros Hlisted.
  - apply NoDup_Permutation; [apply children_NoDup.. |].
    intros c. rewrite elem_of_children_insert by done.
    split; [by intros [-> | ?] | by right].
  - apply NoDup_Permutation; [apply children_NoDup | |].
    + apply NoDup_cons. split; [done | apply children_NoDup].
    + intros c. by rewrite elem_of_children_insert, elem_of_cons.
Qed.

Lemma upload_adds_at_most_one_entry_witness :
  (file_name scan_v2 ∈ children (disk w2) (input_dir w2) →
   children (disk (POST_upload (upload_request scan_v2) w2).2) (input_dir w2)
     ≡ₚ children (disk w2) (input_dir w2))
  ∧ (file_name scan_v2 ∉ children (disk w2) (input_dir w2) →
     children (disk (POST_upload (upload_request scan_v2) w2).2) (input_dir w2)
       ≡ₚ file_name scan_v2 :: children (disk w2) (input_dir w2)).
Proof.
  apply (upload_adds_at_most_one_entry scan_v2 w2).
  - reflexivity.
  - vm_compute. reflexivity.
  - vm_compute. intros [=].
Defined.

End UploadCount.
